(** * agilerl/utils/utils.py: population factory, episode scores, env-defined actions

    A shallow embedding of [create_population], [calculate_vectorized_scores]
    and [get_env_defined_actions], and the properties of the specification
    that concern them.

    Conventions of the embedding:
    - a Python call that can raise returns a [result]: [Ok v] or [Raise e];
    - a [dict] is a [gmap], a Python value that is only passed around is a
      [pyval];
    - a 2-D numpy array is a list of rows; slicing clips at the end of the
      row as numpy does;
    - [np.sum] is the sum of the elements in a type [num] of numbers with an
      addition [nadd] and a zero [nzero].  No law of addition is assumed
      unless a theorem lists it. *)

From stdpp Require Import gmap strings list fin_maps.

(** ** Exceptions *)

Inductive exn : Type :=
  | KeyError (key : string)
  | IndexError.

Inductive result (A : Type) : Type :=
  | Ok (a : A)
  | Raise (e : exn).
Arguments Ok {A} a.
Arguments Raise {A} e.

#[global] Instance result_ret : MRet result := fun A a => Ok a.
#[global] Instance result_bind : MBind result := fun A B f r =>
  match r with
  | Ok a => f a
  | Raise e => Raise e
  end.

(** ** Episode score calculator *)

Section Scores.
Context {num : Type} (nzero : num) (nadd : num → num → num).

(** [np.sum(a)] of a 1-D array. *)
Definition np_sum (a : list num) : num := foldr nadd nzero a.

(** [a[start:stop]] for non-negative bounds. *)
Definition slice (a : list num) (start stop : nat) : list num :=
  take (stop - start) (drop start a).

(** [a[start:]] for a non-negative bound. *)
Definition slice_from (a : list num) (start : nat) : list num :=
  drop start a.

(** [np.where(row == 1)[0]], the positions counted from [i]. *)
Fixpoint where_eq1_from (i : nat) (row : list Z) : list nat :=
  match row with
  | [] => []
  | t :: row' =>
      if (t =? 1)%Z then i :: where_eq1_from (S i) row'
      else where_eq1_from (S i) row'
  end.

Definition where_eq1 (row : list Z) : list nat := where_eq1_from 0 row.

(** The inner [for termination_index in termination_indices] loop.  Its
    state is [(start_index, episode_rewards)]; the [break] leaves
    [start_index] as it is. *)
Fixpoint termination_loop (only_first_episode : bool) (row : list num)
    (termination_indices : list nat) (start_index : nat)
    (episode_rewards : list num) : nat * list num :=
  match termination_indices with
  | [] => (start_index, episode_rewards)
  | termination_index :: rest =>
      let episode_reward := np_sum (slice row start_index (termination_index + 1)) in
      let episode_rewards := episode_rewards ++ [episode_reward] in
      if only_first_episode then (start_index, episode_rewards)
      else termination_loop only_first_episode row rest
             (termination_index + 1) episode_rewards
  end.

(** The body of the [for env_index in range(num_envs)] loop, given the two
    rows [rewards[env_index]] and [terminations[env_index]]. *)
Definition env_body (include_unterminated only_first_episode : bool)
    (row : list num) (trow : list Z) (episode_rewards : list num) : list num :=
  let termination_indices := where_eq1 trow in
  if length termination_indices =? 0 then
    episode_rewards ++ [np_sum row]
  else
    let '(start_index, episode_rewards) :=
      termination_loop only_first_episode row termination_indices 0 episode_rewards in
    if negb only_first_episode && include_unterminated
       && (start_index <? length row)
    then episode_rewards ++ [np_sum (slice_from row start_index)]
    else episode_rewards.

(** The outer loop; indexing a row that does not exist raises. *)
Fixpoint env_loop (include_unterminated only_first_episode : bool)
    (rewards : list (list num)) (terminations : list (list Z))
    (env_indices : list nat) (episode_rewards : list num) : result (list num) :=
  match env_indices with
  | [] => Ok episode_rewards
  | env_index :: rest =>
      match terminations !! env_index, rewards !! env_index with
      | Some trow, Some row =>
          env_loop include_unterminated only_first_episode rewards terminations rest
            (env_body include_unterminated only_first_episode row trow episode_rewards)
      | _, _ => Raise IndexError
      end
  end.

Definition calculate_vectorized_scores (rewards : list (list num))
    (terminations : list (list Z))
    (include_unterminated only_first_episode : bool) : result (list num) :=
  let num_envs := length rewards in
  env_loop include_unterminated only_first_episode rewards terminations
    (seq 0 num_envs) [].

(** *** The algorithm of section 4.3, written from its four steps *)

(** Step 1: the step indices where the row of terminations is 1, ascending. *)
Definition spec_termination_indices (trow : list Z) : list nat :=
  filter (λ i, trow !! i = Some 1%Z) (seq 0 (length trow)).

(** The rewards of the window [[start, stop]], both ends included. *)
Definition spec_window (row : list num) (start stop : nat) : list num :=
  omap (λ i, row !! i) (seq start (S stop - start)).

(** Steps 3 and 4 with [only_first_episode] false: one score per
    termination index, the start advancing past each, then the trailing
    score. *)
Fixpoint spec_walk (include_unterminated : bool) (row : list num)
    (start : nat) (indices : list nat) : list num :=
  match indices with
  | [] =>
      if include_unterminated && bool_decide (start < length row)
      then [np_sum (omap (λ i, row !! i) (seq start (length row - start)))]
      else []
  | t :: indices' =>
      np_sum (spec_window row start t)
      :: spec_walk include_unterminated row (t + 1) indices'
  end.

Definition spec_row_scores (include_unterminated only_first_episode : bool)
    (row : list num) (trow : list Z) : list num :=
  match spec_termination_indices trow with
  | [] => [np_sum row]
  | t :: indices' =>
      if only_first_episode then [np_sum (spec_window row 0 t)]
      else spec_walk include_unterminated row 0 (t :: indices')
  end.

(** Rows are processed in order and the output is environment-major. *)
Definition spec_scores (include_unterminated only_first_episode : bool)
    (rewards : list (list num)) (terminations : list (list Z)) : list num :=
  concat (zip_with (spec_row_scores include_unterminated only_first_episode)
            rewards terminations).

(** The scores that one row contributes, from the code. *)
Definition row_scores (include_unterminated only_first_episode : bool)
    (row : list num) (trow : list Z) : list num :=
  env_body include_unterminated only_first_episode row trow [].
End Scores.

(** The indices lie at or after [start] and increase strictly. *)
Fixpoint ascending_from (start : nat) (indices : list nat) : Prop :=
  match indices with
  | [] => True
  | t :: indices' => start ≤ t ∧ ascending_from (t + 1) indices'
  end.

(** [a] is a 2-D array of shape [(n, m)]. *)
Definition has_shape {A : Type} (n m : nat) (a : list (list A)) : bool :=
  (length a =? n) && forallb (λ row, length row =? m) a.

(** ** Population factory *)

(** A Python value that the factory only passes on: [None], a bool, an int,
    a string, or an object (a space, a network, a float, ...) known by an
    identifier. *)
Inductive pyval : Type :=
  | PNone
  | PBool (b : bool)
  | PInt (z : Z)
  | PStr (s : string)
  | PObj (id : nat).

#[global] Instance pyval_eq_dec : EqDecision pyval.
Proof. solve_decision. Defined.

(** The algorithm classes imported by the module. *)
Inductive algo_class : Type :=
  | DQN | RainbowDQN | DDPG | PPO | CQN | TD3 | MADDPG | MATD3
  | NeuralUCB | NeuralTS.

#[global] Instance algo_class_eq_dec : EqDecision algo_class.
Proof. solve_decision. Defined.

(** Modelled from the spec: the algorithm classes are defined outside this
    file and are consumed as opaque constructors.  An agent is the record of
    the constructor call that made it: its class and its keyword arguments in
    the order of the call.  Its [index] attribute is the [index] it was
    constructed with. *)
Record agent : Type := Agent {
  agent_class : algo_class;
  agent_kwargs : list (string * pyval)
}.

#[global] Instance agent_eq_dec : EqDecision agent.
Proof. solve_decision. Defined.

Fixpoint lookup_kwarg (kw : string) (kwargs : list (string * pyval)) : option pyval :=
  match kwargs with
  | [] => None
  | (kw', v) :: kwargs' => if String.eqb kw' kw then Some v else lookup_kwarg kw kwargs'
  end.

(** The value an agent was given for keyword [kw], if any. *)
Definition kwarg (kw : string) (a : agent) : option pyval :=
  lookup_kwarg kw (agent_kwargs a).

Definition agent_index (a : agent) : option pyval := kwarg "index" a.

(** The expression of a keyword argument: a value at hand, or
    [INIT_HP[key]]. *)
Inductive arg : Type :=
  | Val (v : pyval)
  | Hp (key : string).

Definition eval_arg (INIT_HP : gmap string pyval) (a : arg) : result pyval :=
  match a with
  | Val v => Ok v
  | Hp key =>
      match INIT_HP !! key with
      | Some v => Ok v
      | None => Raise (KeyError key)
      end
  end.

(** Keyword arguments are evaluated left to right; the first missing key
    raises. *)
Fixpoint eval_kwargs (INIT_HP : gmap string pyval) (kwargs : list (string * arg))
    : result (list (string * pyval)) :=
  match kwargs with
  | [] => Ok []
  | (kw, a) :: kwargs' =>
      v ← eval_arg INIT_HP a;
      vs ← eval_kwargs INIT_HP kwargs';
      mret ((kw, v) :: vs)
  end.

(** [cls(kw1=e1, kw2=e2, ...)]. *)
Definition construct (INIT_HP : gmap string pyval) (cls : algo_class)
    (kwargs : list (string * arg)) : result agent :=
  vs ← eval_kwargs INIT_HP kwargs;
  mret (Agent cls vs).

(** [for idx in range(population_size): agent = ...; population.append(agent)]. *)
Fixpoint population_loop (body : nat → result agent) (indices : list nat)
    (population : list agent) : result (list agent) :=
  match indices with
  | [] => Ok population
  | idx :: rest =>
      a ← body idx;
      population_loop body rest (population ++ [a])
  end.

Definition range (n : nat) : list nat := seq 0 n.

Section CreatePopulation.
Local Open Scope string_scope.

Definition create_population (algo : string)
    (observation_space action_space : pyval) (one_hot : bool)
    (net_config : pyval) (INIT_HP : gmap string pyval)
    (actor_network critic_network : pyval) (population_size : nat)
    (num_envs : Z) (device : string) (accelerator torch_compiler : pyval)
    : result (list agent) :=
  let population := @nil agent in
  if algo =? "DQN" then
    population_loop (λ idx, construct INIT_HP DQN [
      ("observation_space", Val observation_space);
      ("action_space", Val action_space);
      ("one_hot", Val (PBool one_hot));
      ("index", Val (PInt (Z.of_nat idx)));
      ("net_config", Val net_config);
      ("batch_size", Hp "BATCH_SIZE");
      ("lr", Hp "LR");
      ("learn_step", Hp "LEARN_STEP");
      ("gamma", Hp "GAMMA");
      ("tau", Hp "TAU");
      ("double", Hp "DOUBLE");
      ("actor_network", Val actor_network);
      ("device", Val (PStr device));
      ("accelerator", Val accelerator)
    ]) (range population_size) population
  else if algo =? "Rainbow DQN" then
    population_loop (λ idx, construct INIT_HP RainbowDQN [
      ("observation_space", Val observation_space);
      ("action_space", Val action_space);
      ("one_hot", Val (PBool one_hot));
      ("index", Val (PInt (Z.of_nat idx)));
      ("net_config", Val net_config);
      ("batch_size", Hp "BATCH_SIZE");
      ("lr", Hp "LR");
      ("learn_step", Hp "LEARN_STEP");
      ("gamma", Hp "GAMMA");
      ("tau", Hp "TAU");
      ("beta", Hp "BETA");
      ("prior_eps", Hp "PRIOR_EPS");
      ("num_atoms", Hp "NUM_ATOMS");
      ("v_min", Hp "V_MIN");
      ("v_max", Hp "V_MAX");
      ("n_step", Hp "N_STEP");
      ("actor_network", Val actor_network);
      ("device", Val (PStr device));
      ("accelerator", Val accelerator)
    ]) (range population_size) population
  else if algo =? "DDPG" then
    population_loop (λ idx, construct INIT_HP DDPG [
      ("observation_space", Val observation_space);
      ("action_space", Val action_space);
      ("one_hot", Val (PBool one_hot));
      ("max_action", Hp "MAX_ACTION");
      ("min_action", Hp "MIN_ACTION");
      ("O_U_noise", Hp "O_U_NOISE");
      ("expl_noise", Hp "EXPL_NOISE");
      ("vect_noise_dim", Val (PInt num_envs));
      ("mean_noise", Hp "MEAN_NOISE");
      ("theta", Hp "THETA");
      ("dt", Hp "DT");
      ("index", Val (PInt (Z.of_nat idx)));
      ("net_config", Val net_config);
      ("batch_size", Hp "BATCH_SIZE");
      ("lr_actor", Hp "LR_ACTOR");
      ("lr_critic", Hp "LR_CRITIC");
      ("learn_step", Hp "LEARN_STEP");
      ("gamma", Hp "GAMMA");
      ("tau", Hp "TAU");
      ("policy_freq", Hp "POLICY_FREQ");
      ("actor_network", Val actor_network);
      ("critic_network", Val critic_network);
      ("device", Val (PStr device));
      ("accelerator", Val accelerator)
    ]) (range population_size) population
  else if algo =? "PPO" then
    population_loop (λ idx, construct INIT_HP PPO [
      ("observation_space", Val observation_space);
      ("action_space", Val action_space);
      ("one_hot", Val (PBool one_hot));
      ("discrete_actions", Hp "DISCRETE_ACTIONS");
      ("index", Val (PInt (Z.of_nat idx)));
      ("net_config", Val net_config);
      ("batch_size", Hp "BATCH_SIZE");
      ("lr", Hp "LR");
      ("learn_step", Hp "LEARN_STEP");
      ("gamma", Hp "GAMMA");
      ("gae_lambda", Hp "GAE_LAMBDA");
      ("action_std_init", Hp "ACTION_STD_INIT");
      ("clip_coef", Hp "CLIP_COEF");
      ("ent_coef", Hp "ENT_COEF");
      ("vf_coef", Hp "VF_COEF");
      ("max_grad_norm", Hp "MAX_GRAD_NORM");
      ("target_kl", Hp "TARGET_KL");
      ("update_epochs", Hp "UPDATE_EPOCHS");
      ("actor_network", Val actor_network);
      ("critic_network", Val critic_network);
      ("device", Val (PStr device));
      ("accelerator", Val accelerator)
    ]) (range population_size) population
  else if algo =? "CQN" then
    population_loop (λ idx, construct INIT_HP CQN [
      ("observation_space", Val observation_space);
      ("action_space", Val action_space);
      ("one_hot", Val (PBool one_hot));
      ("index", Val (PInt (Z.of_nat idx)));
      ("net_config", Val net_config);
      ("batch_size", Hp "BATCH_SIZE");
      ("lr", Hp "LR");
      ("learn_step", Hp "LEARN_STEP");
      ("gamma", Hp "GAMMA");
      ("tau", Hp "TAU");
      ("double", Hp "DOUBLE");
      ("actor_network", Val actor_network);
      ("device", Val (PStr device));
      ("accelerator", Val accelerator)
    ]) (range population_size) population
  else if algo =? "TD3" then
    population_loop (λ idx, construct INIT_HP TD3 [
      ("observation_space", Val observation_space);
      ("action_space", Val action_space);
      ("one_hot", Val (PBool one_hot));
      ("max_action", Hp "MAX_ACTION");
      ("min_action", Hp "MIN_ACTION");
      ("O_U_noise", Hp "O_U_NOISE");
      ("expl_noise", Hp "EXPL_NOISE");
      ("vect_noise_dim", Val (PInt num_envs));
      ("mean_noise", Hp "MEAN_NOISE");
      ("theta", Hp "THETA");
      ("dt", Hp "DT");
      ("index", Val (PInt (Z.of_nat idx)));
      ("net_config", Val net_config);
      ("batch_size", Hp "BATCH_SIZE");
      ("lr_actor", Hp "LR_ACTOR");
      ("lr_critic", Hp "LR_CRITIC");
      ("learn_step", Hp "LEARN_STEP");
      ("gamma", Hp "GAMMA");
      ("tau", Hp "TAU");
      ("policy_freq", Hp "POLICY_FREQ");
      ("actor_network", Val actor_network);
      ("critic_networks", Val critic_network);
      ("device", Val (PStr device));
      ("accelerator", Val accelerator)
    ]) (range population_size) population
  else if algo =? "MADDPG" then
    population_loop (λ idx, construct INIT_HP MADDPG [
      ("observation_spaces", Val observation_space);
      ("action_spaces", Val action_space);
      ("one_hot", Val (PBool one_hot));
      ("n_agents", Hp "N_AGENTS");
      ("agent_ids", Hp "AGENT_IDS");
      ("O_U_noise", Hp "O_U_NOISE");
      ("expl_noise", Hp "EXPL_NOISE");
      ("vect_noise_dim", Val (PInt num_envs));
      ("mean_noise", Hp "MEAN_NOISE");
      ("theta", Hp "THETA");
      ("dt", Hp "DT");
      ("index", Val (PInt (Z.of_nat idx)));
      ("max_action", Hp "MAX_ACTION");
      ("min_action", Hp "MIN_ACTION");
      ("net_config", Val net_config);
      ("batch_size", Hp "BATCH_SIZE");
      ("lr_actor", Hp "LR_ACTOR");
      ("lr_critic", Hp "LR_CRITIC");
      ("learn_step", Hp "LEARN_STEP");
      ("gamma", Hp "GAMMA");
      ("tau", Hp "TAU");
      ("discrete_actions", Hp "DISCRETE_ACTIONS");
      ("actor_networks", Val actor_network);
      ("critic_networks", Val critic_network);
      ("device", Val (PStr device));
      ("accelerator", Val accelerator);
      ("torch_compiler", Val torch_compiler)
    ]) (range population_size) population
  else if algo =? "MATD3" then
    population_loop (λ idx, construct INIT_HP MATD3 [
      ("observation_spaces", Val observation_space);
      ("action_spaces", Val action_space);
      ("one_hot", Val (PBool one_hot));
      ("n_agents", Hp "N_AGENTS");
      ("agent_ids", Hp "AGENT_IDS");
      ("O_U_noise", Hp "O_U_NOISE");
      ("expl_noise", Hp "EXPL_NOISE");
      ("vect_noise_dim", Val (PInt num_envs));
      ("mean_noise", Hp "MEAN_NOISE");
      ("theta", Hp "THETA");
      ("dt", Hp "DT");
      ("index", Val (PInt (Z.of_nat idx)));
      ("max_action", Hp "MAX_ACTION");
      ("min_action", Hp "MIN_ACTION");
      ("net_config", Val net_config);
      ("batch_size", Hp "BATCH_SIZE");
      ("lr_actor", Hp "LR_ACTOR");
      ("lr_critic", Hp "LR_CRITIC");
      ("policy_freq", Hp "POLICY_FREQ");
      ("learn_step", Hp "LEARN_STEP");
      ("gamma", Hp "GAMMA");
      ("tau", Hp "TAU");
      ("discrete_actions", Hp "DISCRETE_ACTIONS");
      ("actor_networks", Val actor_network);
      ("critic_networks", Val critic_network);
      ("device", Val (PStr device));
      ("accelerator", Val accelerator);
      ("torch_compiler", Val torch_compiler)
    ]) (range population_size) population
  else if algo =? "NeuralUCB" then
    population_loop (λ idx, construct INIT_HP NeuralUCB [
      ("observation_space", Val observation_space);
      ("action_space", Val action_space);
      ("index", Val (PInt (Z.of_nat idx)));
      ("net_config", Val net_config);
      ("gamma", Hp "GAMMA");
      ("lamb", Hp "LAMBDA");
      ("reg", Hp "REG");
      ("batch_size", Hp "BATCH_SIZE");
      ("lr", Hp "LR");
      ("learn_step", Hp "LEARN_STEP");
      ("actor_network", Val actor_network);
      ("device", Val (PStr device));
      ("accelerator", Val accelerator)
    ]) (range population_size) population
  else if algo =? "NeuralTS" then
    population_loop (λ idx, construct INIT_HP NeuralTS [
      ("observation_space", Val observation_space);
      ("action_space", Val action_space);
      ("index", Val (PInt (Z.of_nat idx)));
      ("net_config", Val net_config);
      ("gamma", Hp "GAMMA");
      ("lamb", Hp "LAMBDA");
      ("reg", Hp "REG");
      ("batch_size", Hp "BATCH_SIZE");
      ("lr", Hp "LR");
      ("learn_step", Hp "LEARN_STEP");
      ("actor_network", Val actor_network);
      ("device", Val (PStr device));
      ("accelerator", Val accelerator)
    ]) (range population_size) population
  else Ok population.
End CreatePopulation.

Section Tables.
Local Open Scope string_scope.

(** The algorithm identifiers that [create_population] dispatches on. *)
Definition recognized_algos : list string :=
  ["DQN"; "Rainbow DQN"; "DDPG"; "PPO"; "CQN"; "TD3"; "MADDPG"; "MATD3";
   "NeuralUCB"; "NeuralTS"].

(** The dedicated constructor of each identifier. *)
Definition dedicated_class (algo : string) : option algo_class :=
  if algo =? "DQN" then Some DQN
  else if algo =? "Rainbow DQN" then Some RainbowDQN
  else if algo =? "DDPG" then Some DDPG
  else if algo =? "PPO" then Some PPO
  else if algo =? "CQN" then Some CQN
  else if algo =? "TD3" then Some TD3
  else if algo =? "MADDPG" then Some MADDPG
  else if algo =? "MATD3" then Some MATD3
  else if algo =? "NeuralUCB" then Some NeuralUCB
  else if algo =? "NeuralTS" then Some NeuralTS
  else None.

(** The keys of [INIT_HP] that each branch of [create_population] reads, in
    the order in which the constructor call reads them. *)
Definition keys_read (algo : string) : list string :=
  if algo =? "DQN" then
    ["BATCH_SIZE"; "LR"; "LEARN_STEP"; "GAMMA"; "TAU"; "DOUBLE"]
  else if algo =? "Rainbow DQN" then
    ["BATCH_SIZE"; "LR"; "LEARN_STEP"; "GAMMA"; "TAU"; "BETA"; "PRIOR_EPS";
     "NUM_ATOMS"; "V_MIN"; "V_MAX"; "N_STEP"]
  else if (algo =? "DDPG") || (algo =? "TD3") then
    ["MAX_ACTION"; "MIN_ACTION"; "O_U_NOISE"; "EXPL_NOISE"; "MEAN_NOISE";
     "THETA"; "DT"; "BATCH_SIZE"; "LR_ACTOR"; "LR_CRITIC"; "LEARN_STEP";
     "GAMMA"; "TAU"; "POLICY_FREQ"]
  else if algo =? "PPO" then
    ["DISCRETE_ACTIONS"; "BATCH_SIZE"; "LR"; "LEARN_STEP"; "GAMMA";
     "GAE_LAMBDA"; "ACTION_STD_INIT"; "CLIP_COEF"; "ENT_COEF"; "VF_COEF";
     "MAX_GRAD_NORM"; "TARGET_KL"; "UPDATE_EPOCHS"]
  else if algo =? "CQN" then
    ["BATCH_SIZE"; "LR"; "LEARN_STEP"; "GAMMA"; "TAU"; "DOUBLE"]
  else if algo =? "MADDPG" then
    ["N_AGENTS"; "AGENT_IDS"; "O_U_NOISE"; "EXPL_NOISE"; "MEAN_NOISE";
     "THETA"; "DT"; "MAX_ACTION"; "MIN_ACTION"; "BATCH_SIZE"; "LR_ACTOR";
     "LR_CRITIC"; "LEARN_STEP"; "GAMMA"; "TAU"; "DISCRETE_ACTIONS"]
  else if algo =? "MATD3" then
    ["N_AGENTS"; "AGENT_IDS"; "O_U_NOISE"; "EXPL_NOISE"; "MEAN_NOISE";
     "THETA"; "DT"; "MAX_ACTION"; "MIN_ACTION"; "BATCH_SIZE"; "LR_ACTOR";
     "LR_CRITIC"; "POLICY_FREQ"; "LEARN_STEP"; "GAMMA"; "TAU";
     "DISCRETE_ACTIONS"]
  else if (algo =? "NeuralUCB") || (algo =? "NeuralTS") then
    ["GAMMA"; "LAMBDA"; "REG"; "BATCH_SIZE"; "LR"; "LEARN_STEP"]
  else [].

(** *** The table of required keys of section 4.2, written from its rows *)

Definition table_dqn : list string :=
  ["BATCH_SIZE"; "LR"; "LEARN_STEP"; "GAMMA"; "TAU"; "DOUBLE"].

Definition table_ddpg : list string :=
  ["MAX_ACTION"; "MIN_ACTION"; "O_U_NOISE"; "EXPL_NOISE"; "MEAN_NOISE";
   "THETA"; "DT"; "BATCH_SIZE"; "LR_ACTOR"; "LR_CRITIC"; "LEARN_STEP";
   "GAMMA"; "TAU"; "POLICY_FREQ"].

(** The row of MADDPG and MATD3 can be read in two ways: the DDPG/TD3 keys
    include POLICY_FREQ, and the row also calls POLICY_FREQ MATD3-only.
    [maddpg_policy_freq] chooses whether MADDPG is given POLICY_FREQ. *)
Definition table_4_2 (maddpg_policy_freq : bool) (algo : string) : list string :=
  if algo =? "DQN" then table_dqn
  else if algo =? "Rainbow DQN" then
    table_dqn ++ ["BETA"; "PRIOR_EPS"; "NUM_ATOMS"; "V_MIN"; "V_MAX"; "N_STEP"]
  else if algo =? "DDPG" then table_ddpg
  else if algo =? "PPO" then
    ["DISCRETE_ACTIONS"; "BATCH_SIZE"; "LR"; "LEARN_STEP"; "GAMMA";
     "GAE_LAMBDA"; "ACTION_STD_INIT"; "CLIP_COEF"; "ENT_COEF"; "VF_COEF";
     "MAX_GRAD_NORM"; "TARGET_KL"; "UPDATE_EPOCHS"]
  else if algo =? "CQN" then
    ["BATCH_SIZE"; "LR"; "LEARN_STEP"; "GAMMA"; "TAU"; "DOUBLE"]
  else if algo =? "TD3" then table_ddpg
  else if algo =? "MADDPG" then
    (if maddpg_policy_freq then table_ddpg
     else filter (λ k, k ≠ "POLICY_FREQ") table_ddpg)
    ++ ["N_AGENTS"; "AGENT_IDS"; "DISCRETE_ACTIONS"]
  else if algo =? "MATD3" then
    table_ddpg ++ ["N_AGENTS"; "AGENT_IDS"; "DISCRETE_ACTIONS"]
  else if (algo =? "NeuralUCB") || (algo =? "NeuralTS") then
    ["GAMMA"; "LAMBDA"; "REG"; "BATCH_SIZE"; "LR"; "LEARN_STEP"]
  else [].

(** The algorithms whose constructor is not given [one_hot]. *)
Definition is_bandit (algo : string) : bool :=
  (algo =? "NeuralUCB") || (algo =? "NeuralTS").

(** The algorithms that take per-agent space mappings, under the keywords
    [observation_spaces] and [action_spaces]. *)
Definition is_multi_agent (algo : string) : bool :=
  (algo =? "MADDPG") || (algo =? "MATD3").

Definition observation_keyword (algo : string) : string :=
  if is_multi_agent algo then "observation_spaces" else "observation_space".

Definition action_keyword (algo : string) : string :=
  if is_multi_agent algo then "action_spaces" else "action_space".

(** The noise-driven continuous-control algorithms. *)
Definition noise_driven_algos : list string :=
  ["DDPG"; "TD3"; "MADDPG"; "MATD3"].

Definition is_noise_driven (algo : string) : bool :=
  (algo =? "DDPG") || (algo =? "TD3") || (algo =? "MADDPG") || (algo =? "MATD3").
End Tables.

(** Every key of [keys] is in the mapping. *)
Definition has_keys (INIT_HP : gmap string pyval) (keys : list string) : bool :=
  forallb (λ k, bool_decide (is_Some (INIT_HP !! k))) keys.

(** The keys that a list of keyword arguments looks up. *)
Definition hp_keys (kwargs : list (string * arg)) : list string :=
  omap (λ p, match p.2 with Hp key => Some key | Val _ => None end) kwargs.

(** The keyword arguments of a call whose lookups all succeed. *)
Definition resolve (INIT_HP : gmap string pyval) (kwargs : list (string * arg))
    : list (string * pyval) :=
  (λ p, (p.1, match p.2 with
              | Val v => v
              | Hp key => default PNone (INIT_HP !! key)
              end)) <$> kwargs.

Section Forwarding.
Local Open Scope string_scope.

(** The agent was made by the dedicated constructor of [algo] and was
    given the two spaces, [net_config], [device] and [accelerator]. *)
Definition forwards_common (algo : string)
    (observation_space action_space net_config : pyval) (device : string)
    (accelerator : pyval) (a : agent) : Prop :=
  dedicated_class algo = Some (agent_class a)
  ∧ kwarg (observation_keyword algo) a = Some observation_space
  ∧ kwarg (action_keyword algo) a = Some action_space
  ∧ kwarg "net_config" a = Some net_config
  ∧ kwarg "device" a = Some (PStr device)
  ∧ kwarg "accelerator" a = Some accelerator.

(** The agent was given [one_hot]. *)
Definition forwards_one_hot (one_hot : bool) (a : agent) : Prop :=
  kwarg "one_hot" a = Some (PBool one_hot).

(** What the constructor call of slot [idx] is given, read off its keyword
    arguments [kw]. *)
Definition call_given (algo : string)
    (observation_space action_space : pyval) (one_hot : bool)
    (net_config : pyval) (num_envs : Z) (device : string) (accelerator : pyval)
    (idx : nat) (kw : list (string * pyval)) : Prop :=
  lookup_kwarg "index" kw = Some (PInt (Z.of_nat idx))
  ∧ lookup_kwarg (observation_keyword algo) kw = Some observation_space
  ∧ lookup_kwarg (action_keyword algo) kw = Some action_space
  ∧ lookup_kwarg "net_config" kw = Some net_config
  ∧ lookup_kwarg "device" kw = Some (PStr device)
  ∧ lookup_kwarg "accelerator" kw = Some accelerator
  ∧ lookup_kwarg "one_hot" kw
    = (if is_bandit algo then None else Some (PBool one_hot))
  ∧ lookup_kwarg "vect_noise_dim" kw
    = (if is_noise_driven algo then Some (PInt num_envs) else None).

(** Section 4.2 as it reads: every agent of every recognized algorithm is
    given the spaces, [one_hot], [net_config], [device] and
    [accelerator]. *)
Definition forwards_all_everywhere : Prop :=
  ∀ algo observation_space action_space one_hot net_config INIT_HP
    actor_network critic_network population_size num_envs device
    accelerator torch_compiler population,
    algo ∈ recognized_algos →
    create_population algo observation_space action_space one_hot net_config
      INIT_HP actor_network critic_network population_size num_envs device
      accelerator torch_compiler = Ok population →
    Forall (λ a, forwards_common algo observation_space action_space
                   net_config device accelerator a
                 ∧ forwards_one_hot one_hot a) population.

(** Sections 4.2 and 7 as they read, for either reading of the table: a
    lookup failure exactly when a key of the table is missing. *)
Definition lookup_failure_iff_table (maddpg_policy_freq : bool) : Prop :=
  ∀ algo observation_space action_space one_hot net_config INIT_HP
    actor_network critic_network population_size num_envs device
    accelerator torch_compiler,
    algo ∈ recognized_algos →
    (∃ key, create_population algo observation_space action_space one_hot
              net_config INIT_HP actor_network critic_network
              population_size num_envs device accelerator torch_compiler
            = Raise (KeyError key))
    ↔ (∃ key, key ∈ table_4_2 maddpg_policy_freq algo
              ∧ INIT_HP !! key = None).

(** A mapping that has every key of [keys]. *)
Definition hp_with (keys : list string) : gmap string pyval :=
  list_to_map ((λ k, (k, PInt 1)) <$> keys).
End Forwarding.

(** ** Env-defined actions *)

(** The dict comprehension
    [{agent: info[agent].get("env_defined_action", None) for agent in agents}],
    filling [d] from left to right. *)
Fixpoint eda_comprehension (info : gmap string (gmap string pyval))
    (agents : list string) (d : gmap string pyval) : result (gmap string pyval) :=
  match agents with
  | [] => Ok d
  | agent :: rest =>
      match info !! agent with
      | None => Raise (KeyError agent)
      | Some agent_info =>
          let eda := default PNone (agent_info !! "env_defined_action"%string) in
          eda_comprehension info rest (<[agent := eda]> d)
      end
  end.

(** [all(eda is None for eda in d.values())]. *)
Definition all_none (d : gmap string pyval) : bool :=
  forallb (λ eda, bool_decide (eda = PNone)) (snd <$> map_to_list d).

(** The result is [None] (a bare [return]) or the dict. *)
Definition get_env_defined_actions (info : gmap string (gmap string pyval))
    (agents : list string) : result (option (gmap string pyval)) :=
  env_defined_actions ← eda_comprehension info agents ∅;
  if all_none env_defined_actions then Ok None
  else Ok (Some env_defined_actions).

(** The ["env_defined_action"] entry of an agent's info, when the agent has
    info and the info has the entry. *)
Definition eda_entry (info : gmap string (gmap string pyval)) (agent : string)
    : option pyval :=
  info !! agent ≫= (λ agent_info, agent_info !! "env_defined_action"%string).

(** An entry is absent when it is missing or holds [None], the absent
    marker. *)
Definition entry_absent (info : gmap string (gmap string pyval)) (agent : string)
    : Prop :=
  eda_entry info agent = None ∨ eda_entry info agent = Some PNone.

(** ** Further definitions *)

Section MoreDefinitions.
Local Open Scope string_scope.

(** The algorithms whose constructor call is given [critic_network]. *)
Definition takes_critic (algo : string) : bool :=
  (algo =? "DDPG") || (algo =? "PPO") || (algo =? "TD3")
  || (algo =? "MADDPG") || (algo =? "MATD3").

(** Two constructor calls that agree on everything but the value given for
    [index]: same class, same keywords in the same order, same value for
    every keyword other than [index]. *)
Definition same_but_index (a b : agent) : Prop :=
  agent_class a = agent_class b
  ∧ (agent_kwargs a).*1 = (agent_kwargs b).*1
  ∧ ∀ kw, kw ≠ "index" → kwarg kw a = kwarg kw b.

(** The same for the expressions of the keyword arguments. *)
Definition args_same_but_index (l1 l2 : list (string * arg)) : Prop :=
  Forall2 (λ p q, p.1 = q.1 ∧ (p.1 ≠ "index" → p.2 = q.2)) l1 l2.

(** What [info[agent].get("env_defined_action", None)] evaluates to, when
    [info[agent]] exists. *)
Definition eda_value (info : gmap string (gmap string pyval)) (agent : string)
    : option pyval :=
  (λ agent_info, default PNone (agent_info !! "env_defined_action"))
    <$> info !! agent.
End MoreDefinitions.

(** ** Reporting helpers *)

(** Modelled from the spec: an agent as the reporting helpers see it, by the
    attributes they read: [index], the [fitness] and [steps] sequences, and
    the value of [inspect_attributes()]. *)
Record member (num : Type) : Type := Member {
  member_index : Z;
  member_fitness : list num;
  member_steps : list Z;
  member_attributes : pyval
}.
Arguments Member {num} _ _ _ _.
Arguments member_index {num} _.
Arguments member_fitness {num} _.
Arguments member_steps {num} _.
Arguments member_attributes {num} _.

(** [a[-n:]] of a Python list, for [n > 0]: the start is clamped at 0. *)
Definition slice_last {A : Type} (n : nat) (a : list A) : list A :=
  drop (length a - n) a.

(** [a[:-1]] of a Python list: the stop is clamped at 0. *)
Definition slice_but_last {A : Type} (a : list A) : list A :=
  take (length a - 1) a.

Section Reporting.
Context {num : Type}.

(** [np.mean] and the formatting of a line are taken as given. *)
Context (np_mean : list num → num) (format_line : Z → num → pyval → string).

(** The lines that [print_hyperparams] prints, in order. *)
Definition print_hyperparams (pop : list (member num)) : list string :=
  (λ agent,
     format_line (member_index agent)
       (np_mean (slice_last 5 (member_fitness agent)))
       (member_attributes agent)) <$> pop.
End Reporting.

(** What [plot_population_score] hands to the plotting backend: one
    [plt.plot(steps, scores)] per agent, then the title, the label of the x
    axis and the lower bound of the y axis, and [plt.show()]. *)
Record figure (num : Type) : Type := Figure {
  figure_lines : list (list Z * list num);
  figure_title : string;
  figure_xlabel : string;
  figure_ylim_bottom : Z;
  figure_shown : bool
}.
Arguments Figure {num} _ _ _ _ _.
Arguments figure_lines {num} _.

Definition plot_population_score {num : Type} (pop : list (member num))
    : figure num :=
  Figure
    ((λ agent,
        let scores := member_fitness agent in
        let steps := slice_but_last (member_steps agent) in
        (steps, scores)) <$> pop)
    "Score History - Mutations" "Steps" (-400) true.

(** * Properties *)

(** ** Episode score calculator *)

Section ScoresFacts.
Context {num : Type} (nzero : num) (nadd : num → num → num).

Lemma omap_shift {A : Type} (f : nat → option A) (l : list nat) :
  omap f (S <$> l) = omap (λ i, f (S i)) l.
Proof.
  induction l as [|i l IH]; [done|].
  rewrite fmap_cons. cbn [omap list_omap]. by rewrite IH.
Qed.

Lemma omap_lookup_seq (row : list num) (start k : nat) :
  omap (λ i, row !! i) (seq start k) = take k (drop start row).
Proof.
  revert start k. induction row as [|x row IH]; intros start k.
  - rewrite drop_nil, take_nil. revert start.
    induction k as [|k IHk]; intros start; [done|].
    cbn [seq omap list_omap]. rewrite lookup_nil. apply IHk.
  - destruct start as [|start].
    + destruct k as [|k]; simpl; [done|].
      f_equal. rewrite <- fmap_S_seq, omap_shift. apply (IH 0).
    + simpl drop. rewrite <- fmap_S_seq, omap_shift. apply IH.
Qed.

Lemma spec_window_slice (row : list num) (start stop : nat) :
  spec_window row start stop = slice row start (stop + 1).
Proof.
  unfold spec_window, slice. rewrite omap_lookup_seq.
  by replace (S stop - start) with (stop + 1 - start) by lia.
Qed.

Lemma filter_shift (P : nat → Prop) `{!∀ i, Decision (P i)} (l : list nat) :
  filter P (S <$> l) = S <$> filter (λ i, P (S i)) l.
Proof.
  induction l as [|j l IH]; [done|].
  rewrite fmap_cons, !filter_cons, IH. by case_decide.
Qed.

Lemma where_eq1_from_spec (i : nat) (trow : list Z) :
  where_eq1_from i trow = (λ j, i + j) <$> spec_termination_indices trow.
Proof.
  unfold spec_termination_indices. revert i.
  induction trow as [|t trow IH]; intros i; [done|].
  cbn [where_eq1_from length seq].
  rewrite filter_cons, <- fmap_S_seq, filter_shift.
  rewrite (IH (S i)).
  destruct (Z.eqb_spec t 1) as [->|Hne].
  - rewrite decide_True by done. rewrite fmap_cons, <- list_fmap_compose.
    f_equal; [lia|]. apply list_fmap_ext. intros ? j _. simpl. lia.
  - rewrite decide_False by (simpl; congruence).
    rewrite <- list_fmap_compose.
    apply list_fmap_ext. intros ? j _. simpl. lia.
Qed.

Lemma where_eq1_spec (trow : list Z) :
  where_eq1 trow = spec_termination_indices trow.
Proof.
  unfold where_eq1. rewrite where_eq1_from_spec.
  rewrite <- (list_fmap_id (spec_termination_indices trow)) at 2.
  by apply list_fmap_ext.
Qed.

(** The loop without [break], followed by the trailing score, is the walk
    of the specification. *)
Lemma termination_loop_spec_walk (iu : bool) (row : list num)
    (indices : list nat) (start : nat) (acc : list num) :
  (let '(start', acc') :=
     termination_loop nzero nadd false row indices start acc in
   if iu && (start' <? length row)
   then acc' ++ [np_sum nzero nadd (slice_from row start')]
   else acc')
  = acc ++ spec_walk nzero nadd iu row start indices.
Proof.
  revert start acc. induction indices as [|t indices IH]; intros start acc.
  - cbn [termination_loop spec_walk].
    rewrite omap_lookup_seq. unfold slice_from.
    rewrite take_ge by (rewrite length_drop; lia).
    destruct iu; cbn [andb]; [|by rewrite app_nil_r].
    destruct (Nat.ltb_spec start (length row)).
    + by rewrite bool_decide_true.
    + rewrite bool_decide_false by lia. by rewrite app_nil_r.
  - cbn [termination_loop spec_walk].
    rewrite IH, spec_window_slice. by rewrite <- app_assoc.
Qed.

(** One row: the loop body appends the scores that section 4.3 gives. *)
Lemma env_body_spec (iu ofe : bool) (row : list num) (trow : list Z)
    (acc : list num) :
  env_body nzero nadd iu ofe row trow acc
  = acc ++ spec_row_scores nzero nadd iu ofe row trow.
Proof.
  unfold env_body, spec_row_scores.
  rewrite where_eq1_spec.
  destruct (spec_termination_indices trow) as [|t indices] eqn:Hidx; [done|].
  cbn [length Nat.eqb]. destruct ofe.
  - cbn [termination_loop negb andb]. by rewrite spec_window_slice.
  - cbn [negb andb]. apply (termination_loop_spec_walk iu).
Qed.

Lemma env_loop_rows (iu ofe : bool) (pre_r rows : list (list num))
    (pre_t trows : list (list Z)) (acc : list num) :
  length pre_r = length pre_t →
  length rows = length trows →
  env_loop nzero nadd iu ofe (pre_r ++ rows) (pre_t ++ trows)
    (seq (length pre_r) (length rows)) acc
  = Ok (acc ++ concat (zip_with (row_scores nzero nadd iu ofe) rows trows)).
Proof.
  revert pre_r pre_t trows acc.
  induction rows as [|row rows IH]; intros pre_r pre_t trows acc Hpre Hlen.
  - simpl. by rewrite app_nil_r.
  - destruct trows as [|trow trows]; [done|].
    cbn [length seq env_loop].
    rewrite Hpre at 1. rewrite !list_lookup_middle by done.
    replace (S (length pre_r)) with (length (pre_r ++ [row]))
      by (rewrite length_app; simpl; lia).
    rewrite (cons_middle row pre_r rows), (cons_middle trow pre_t trows).
    rewrite !app_assoc.
    rewrite IH; [|rewrite !length_app; simpl; lia|simpl in Hlen; lia].
    f_equal. cbn [zip_with concat]. unfold row_scores at 2.
    rewrite !env_body_spec. by rewrite app_nil_l, app_assoc.
Qed.

Lemma has_shape_length {A : Type} (n m : nat) (a : list (list A)) :
  has_shape n m a = true → length a = n.
Proof. unfold has_shape. intros [H _]%andb_prop. by apply Nat.eqb_eq. Qed.

Lemma calculate_vectorized_scores_rows (iu ofe : bool)
    (rewards : list (list num)) (terminations : list (list Z)) :
  length rewards = length terminations →
  calculate_vectorized_scores nzero nadd rewards terminations iu ofe
  = Ok (concat (zip_with (row_scores nzero nadd iu ofe) rewards terminations)).
Proof.
  intros Hlen. unfold calculate_vectorized_scores.
  by apply (env_loop_rows iu ofe [] rewards [] terminations []).
Qed.

(** C1: for 2-D arrays [rewards] and [terminations] of one shape,
    [calculate_vectorized_scores] returns exactly the scores of the
    algorithm of section 4.3: row by row in row order, a row without
    termination gives its sum, otherwise the termination indices are walked
    in ascending order with windows [[start, termination_index]], only the
    first window when [only_first_episode] is true, and else the trailing
    score [sum(rewards[row, start:])] exactly when [include_unterminated]
    is true and [start < row length]; the output is environment-major. *)
Theorem calculate_vectorized_scores_refines_spec (n m : nat)
    (rewards : list (list num)) (terminations : list (list Z))
    (include_unterminated only_first_episode : bool) :
  has_shape n m rewards = true →
  has_shape n m terminations = true →
  calculate_vectorized_scores nzero nadd rewards terminations
    include_unterminated only_first_episode
  = Ok (spec_scores nzero nadd include_unterminated only_first_episode
          rewards terminations).
Proof.
  intros Hr Ht. apply has_shape_length in Hr, Ht.
  rewrite calculate_vectorized_scores_rows by congruence.
  unfold spec_scores, row_scores. f_equal. f_equal.
  apply zip_with_ext; [|done..]. intros row trow.
  by rewrite env_body_spec.
Qed.

(** *** The first episode alone *)

Lemma where_eq1_from_first (trow : list Z) (i t : nat) :
  trow !! t = Some 1%Z →
  (∀ j, j < t → trow !! j ≠ Some 1%Z) →
  ∃ rest, where_eq1_from i trow = (i + t) :: rest.
Proof.
  revert i t. induction trow as [|x trow IH]; intros i t Ht Hfirst; [done|].
  cbn [where_eq1_from]. destruct t as [|t].
  - injection Ht as ->. rewrite Z.eqb_refl, Nat.add_0_r. eauto.
  - destruct (Z.eqb_spec x 1) as [->|_].
    + by destruct (Hfirst 0); [lia|].
    + destruct (IH (S i) t) as [rest ->]; [done| |].
      * intros j Hj. apply (Hfirst (S j)). lia.
      * exists rest. f_equal. lia.
Qed.

(** C5: when [only_first_episode] is true, a row whose first termination
    is at step [t] contributes exactly one score, the sum of its rewards at
    steps [0..t], whatever [include_unterminated] is and whatever follows
    step [t] in either row. *)
Theorem only_first_episode_one_score (include_unterminated : bool)
    (row : list num) (trow : list Z) (t : nat) (episode_rewards : list num) :
  trow !! t = Some 1%Z →
  Forall (λ x, x ≠ 1%Z) (take t trow) →
  env_body nzero nadd include_unterminated true row trow episode_rewards
  = episode_rewards ++ [np_sum nzero nadd (take (t + 1) row)].
Proof.
  intros Ht Hbefore.
  assert (∀ j, j < t → trow !! j ≠ Some 1%Z) as Hfirst.
  { intros j Hj Hone.
    apply (proj1 (Forall_lookup _ _) Hbefore j 1%Z); [|done].
    by rewrite lookup_take_lt. }
  destruct (where_eq1_from_first trow 0 t Ht Hfirst) as [rest Hidx].
  unfold env_body, where_eq1. rewrite Hidx.
  cbn [length Nat.eqb termination_loop negb andb Nat.add].
  unfold slice. by rewrite drop_0, Nat.sub_0_r.
Qed.

(** *** Exhaustive partition under exact addition *)

Section Exact.
Context `{!Assoc (=) nadd, !LeftId (=) nzero nadd, !RightId (=) nzero nadd}.

Lemma np_sum_app (a b : list num) :
  np_sum nzero nadd (a ++ b)
  = nadd (np_sum nzero nadd a) (np_sum nzero nadd b).
Proof.
  unfold np_sum. induction a as [|x a IH]; simpl.
  - by rewrite (left_id nzero nadd).
  - rewrite IH. apply (assoc nadd).
Qed.

Lemma np_sum_singleton (x : num) : np_sum nzero nadd [x] = x.
Proof. unfold np_sum. simpl. by rewrite (right_id nzero nadd). Qed.

Lemma ascending_from_weaken (start start' : nat) (indices : list nat) :
  start' ≤ start → ascending_from start indices → ascending_from start' indices.
Proof. destruct indices; simpl; [done|]. intros ? [??]. split; [lia|done]. Qed.

Lemma where_eq1_from_ascending (i : nat) (trow : list Z) :
  ascending_from i (where_eq1_from i trow).
Proof.
  revert i. induction trow as [|x trow IH]; intros i; [done|].
  cbn [where_eq1_from]. destruct (x =? 1)%Z.
  - split; [done|]. replace (i + 1) with (S i) by lia. apply IH.
  - apply (ascending_from_weaken (S i)); [lia|apply IH].
Qed.

(** Without [break] the windows tile the row from [start] up to the
    start that the loop leaves. *)
Lemma termination_loop_partition (row : list num) (indices : list nat)
    (start : nat) (acc : list num) :
  ascending_from start indices →
  ∃ scores start',
    termination_loop nzero nadd false row indices start acc
    = (start', acc ++ scores)
    ∧ nadd (np_sum nzero nadd scores) (np_sum nzero nadd (drop start' row))
      = np_sum nzero nadd (drop start row).
Proof.
  revert start acc. induction indices as [|t indices IH]; intros start acc Hasc.
  - exists [], start. cbn [termination_loop].
    split; [by rewrite app_nil_r|]. unfold np_sum at 1. simpl.
    by rewrite (left_id nzero nadd).
  - destruct Hasc as [Hle Hasc]. cbn [termination_loop].
    destruct (IH (t + 1) (acc ++ [np_sum nzero nadd (slice row start (t + 1))]) Hasc)
      as (scores & start' & -> & Hsum).
    exists (np_sum nzero nadd (slice row start (t + 1)) :: scores), start'. split.
    + by rewrite <- app_assoc.
    + change (?x :: scores) with ([x] ++ scores).
      rewrite np_sum_app, np_sum_singleton, <- (assoc nadd).
      rewrite Hsum. unfold slice. rewrite <- np_sum_app.
      replace (drop (t + 1) row) with (drop (t + 1 - start) (drop start row))
        by (rewrite drop_drop; f_equal; lia).
      by rewrite take_drop.
Qed.

Lemma row_scores_partition (row : list num) (trow : list Z) :
  np_sum nzero nadd (row_scores nzero nadd true false row trow)
  = np_sum nzero nadd row.
Proof.
  unfold row_scores, env_body.
  destruct (where_eq1 trow) as [|t indices] eqn:Hidx;
    cbn [length Nat.eqb negb andb].
  - by rewrite app_nil_l, np_sum_singleton.
  - destruct (termination_loop_partition row (t :: indices) 0 [])
      as (scores & start' & -> & Hsum).
    { rewrite <- Hidx. apply where_eq1_from_ascending. }
    rewrite app_nil_l. rewrite drop_0 in Hsum.
    destruct (Nat.ltb_spec start' (length row)).
    + by rewrite np_sum_app, np_sum_singleton.
    + rewrite drop_ge in Hsum by done.
      unfold np_sum at 2 in Hsum. simpl in Hsum.
      by rewrite (right_id nzero nadd) in Hsum.
Qed.

End Exact.
End ScoresFacts.

(** X20: read in the monoid of lists, where the score of a window is the
    window itself: with [include_unterminated=True] and
    [only_first_episode=False] the windows of a row, put end to end, are the
    row: they are contiguous, in order, and cover every step once. *)
Lemma windows_tile_row {A : Type} (row : list A) (trow : list Z) :
  concat (row_scores [] app true false ((λ x, [x]) <$> row) trow) = row.
Proof.
  assert (∀ l : list (list A), np_sum [] app l = concat l) as Hsum.
  { induction l as [|x l IH]; [done|]. simpl. by rewrite <- IH. }
  rewrite <- Hsum, row_scores_partition, Hsum by apply _.
  induction row as [|x row IH]; [done|]. rewrite fmap_cons. simpl. by f_equal.
Qed.

(** ** Population factory *)

Lemma has_keys_true (INIT_HP : gmap string pyval) (keys : list string) :
  has_keys INIT_HP keys = true ↔ ∀ k, k ∈ keys → is_Some (INIT_HP !! k).
Proof.
  unfold has_keys. rewrite forallb_forall. split.
  - intros H k Hk. apply list_elem_of_In in Hk.
    by apply H, bool_decide_eq_true in Hk.
  - intros H k Hk. apply bool_decide_eq_true, H. by apply list_elem_of_In.
Qed.

Lemma has_keys_false (INIT_HP : gmap string pyval) (keys : list string) :
  has_keys INIT_HP keys = false ↔ ∃ k, k ∈ keys ∧ INIT_HP !! k = None.
Proof.
  unfold has_keys. induction keys as [|k keys IH]; simpl.
  - split; [done|]. intros (k & Hk & _). by apply elem_of_nil in Hk.
  - rewrite andb_false_iff, IH, bool_decide_eq_false. split.
    + intros [Hk | (k' & Hk' & Hnone)].
      * exists k. split; [left|]. by apply eq_None_not_Some.
      * exists k'. split; [by right|done].
    + intros (k' & [-> | Hk']%elem_of_cons & Hnone).
      * left. by apply eq_None_not_Some.
      * right. eauto.
Qed.

Lemma eval_kwargs_ok (INIT_HP : gmap string pyval) (kwargs : list (string * arg)) :
  has_keys INIT_HP (hp_keys kwargs) = true →
  eval_kwargs INIT_HP kwargs = Ok (resolve INIT_HP kwargs).
Proof.
  induction kwargs as [|[kw [v | key]] kwargs IH]; intros Hkeys; [done|..].
  - cbn [eval_kwargs eval_arg mbind result_bind]. by rewrite IH.
  - unfold hp_keys in Hkeys. cbn [omap list_omap snd has_keys forallb] in Hkeys.
    apply andb_prop in Hkeys as [[v Hv]%bool_decide_eq_true Hkeys].
    cbn [eval_kwargs eval_arg mbind result_bind].
    rewrite Hv. cbn. rewrite IH by done. cbn. by rewrite Hv.
Qed.

Lemma eval_kwargs_raise (INIT_HP : gmap string pyval) (kwargs : list (string * arg)) :
  has_keys INIT_HP (hp_keys kwargs) = false →
  ∃ key, eval_kwargs INIT_HP kwargs = Raise (KeyError key)
         ∧ key ∈ hp_keys kwargs ∧ INIT_HP !! key = None.
Proof.
  induction kwargs as [|[kw [v | key]] kwargs IH]; intros Hkeys; [done|..].
  - destruct (IH Hkeys) as (key & Hraise & Hin & Hnone).
    exists key. cbn [eval_kwargs eval_arg mbind result_bind].
    by rewrite Hraise.
  - unfold hp_keys in Hkeys |- *.
    cbn [omap list_omap snd has_keys forallb] in Hkeys |- *.
    cbn [eval_kwargs eval_arg mbind result_bind].
    destruct (INIT_HP !! key) as [v|] eqn:Hkey.
    + rewrite bool_decide_true in Hkeys by eauto.
      destruct (IH Hkeys) as (key' & Hraise & Hin & Hnone).
      exists key'. rewrite Hraise. split; [done|]. split; [by right|done].
    + exists key. split; [done|]. split; [by left|done].
Qed.

Lemma construct_ok (INIT_HP : gmap string pyval) (cls : algo_class)
    (kwargs : list (string * arg)) :
  has_keys INIT_HP (hp_keys kwargs) = true →
  construct INIT_HP cls kwargs = Ok (Agent cls (resolve INIT_HP kwargs)).
Proof. intros Hkeys. unfold construct. by rewrite eval_kwargs_ok. Qed.

Lemma construct_raise (INIT_HP : gmap string pyval) (cls : algo_class)
    (kwargs : list (string * arg)) :
  has_keys INIT_HP (hp_keys kwargs) = false →
  ∃ key, construct INIT_HP cls kwargs = Raise (KeyError key)
         ∧ key ∈ hp_keys kwargs ∧ INIT_HP !! key = None.
Proof.
  intros Hkeys.
  destruct (eval_kwargs_raise _ _ Hkeys) as (key & Hraise & Hin & Hnone).
  exists key. unfold construct. by rewrite Hraise.
Qed.

Lemma population_loop_ok (INIT_HP : gmap string pyval) (cls : algo_class)
    (kwargs : nat → list (string * arg)) (keys : list string)
    (indices : list nat) (population : list agent) :
  (∀ idx, hp_keys (kwargs idx) = keys) →
  has_keys INIT_HP keys = true →
  population_loop (λ idx, construct INIT_HP cls (kwargs idx)) indices population
  = Ok (population
        ++ ((λ idx, Agent cls (resolve INIT_HP (kwargs idx))) <$> indices)).
Proof.
  intros Hk Hkeys. revert population.
  induction indices as [|idx indices IH]; intros population.
  - simpl. by rewrite app_nil_r.
  - cbn [population_loop]. rewrite construct_ok by by rewrite Hk.
    cbn [mbind result_bind]. rewrite IH, fmap_cons. by rewrite <- app_assoc.
Qed.

Lemma population_loop_raise (INIT_HP : gmap string pyval) (cls : algo_class)
    (kwargs : nat → list (string * arg)) (keys : list string)
    (idx : nat) (indices : list nat) (population : list agent) :
  (∀ idx, hp_keys (kwargs idx) = keys) →
  has_keys INIT_HP keys = false →
  ∃ key, population_loop (λ idx, construct INIT_HP cls (kwargs idx))
           (idx :: indices) population = Raise (KeyError key)
         ∧ key ∈ keys ∧ INIT_HP !! key = None.
Proof.
  intros Hk Hkeys. rewrite <- (Hk idx) in Hkeys.
  destruct (construct_raise _ cls _ Hkeys) as (key & Hraise & Hin & Hnone).
  exists key. cbn [population_loop]. rewrite Hraise, <- (Hk idx). done.
Qed.

Section Population.
Local Open Scope string_scope.

Context (observation_space action_space : pyval) (one_hot : bool)
  (net_config : pyval) (INIT_HP : gmap string pyval)
  (actor_network critic_network : pyval) (population_size : nat)
  (num_envs : Z) (device : string) (accelerator torch_compiler : pyval).

(** Each recognized identifier selects one loop over one constructor call;
    the lemma lists what that call reads and what it is given. *)
Lemma create_population_dispatch (algo : string) :
  algo ∈ recognized_algos →
  ∃ (cls : algo_class) (kwargs : nat → list (string * arg)),
    create_population algo observation_space action_space one_hot net_config
      INIT_HP actor_network critic_network population_size num_envs device
      accelerator torch_compiler
    = population_loop (λ idx, construct INIT_HP cls (kwargs idx))
        (range population_size) []
    ∧ dedicated_class algo = Some cls
    ∧ (∀ idx, hp_keys (kwargs idx) = keys_read algo)
    ∧ (∀ idx, call_given algo observation_space action_space one_hot
                net_config num_envs device accelerator idx
                (resolve INIT_HP (kwargs idx))).
Proof.
  intros Hrec. unfold recognized_algos in Hrec.
  repeat (apply elem_of_cons in Hrec as [-> | Hrec]);
    [.. | by apply elem_of_nil in Hrec];
    (eexists _, (λ idx, _); split; [reflexivity|];
     split; [reflexivity|]; split; [reflexivity|];
     intros idx; repeat split).
Qed.

(** With an empty [range] no constructor is called and no key is read. *)
Lemma create_population_zero (algo : string) :
  population_size = 0 →
  create_population algo observation_space action_space one_hot net_config
    INIT_HP actor_network critic_network population_size num_envs device
    accelerator torch_compiler
  = Ok [].
Proof.
  intros ->. unfold create_population.
  repeat match goal with
         | |- context [String.eqb algo ?s] => destruct (String.eqb algo s)
         end; done.
Qed.

(** With every key at hand the call returns. *)
Lemma create_population_ok (algo : string) :
  algo ∈ recognized_algos →
  has_keys INIT_HP (keys_read algo) = true →
  ∃ population,
    create_population algo observation_space action_space one_hot net_config
      INIT_HP actor_network critic_network population_size num_envs device
      accelerator torch_compiler
    = Ok population.
Proof.
  intros Hrec Hkeys.
  destruct (create_population_dispatch algo Hrec)
    as (cls & kwargs & -> & _ & Hread & _).
  rewrite (population_loop_ok _ _ _ (keys_read algo)) by done. eauto.
Qed.

(** With a key missing and at least one slot the call raises. *)
Lemma create_population_missing (algo : string) :
  algo ∈ recognized_algos →
  0 < population_size →
  has_keys INIT_HP (keys_read algo) = false →
  ∃ key,
    create_population algo observation_space action_space one_hot net_config
      INIT_HP actor_network critic_network population_size num_envs device
      accelerator torch_compiler
    = Raise (KeyError key)
    ∧ key ∈ keys_read algo ∧ INIT_HP !! key = None.
Proof.
  intros Hrec Hpos Hkeys.
  destruct (create_population_dispatch algo Hrec)
    as (cls & kwargs & -> & _ & Hread & _).
  destruct population_size as [|n]; [lia|].
  unfold range. cbn [seq]. by apply population_loop_raise.
Qed.

(** A population that is returned is one agent per index of
    [range(population_size)], made by the dedicated constructor with the
    keyword arguments of its call. *)
Lemma create_population_returns (algo : string) (population : list agent) :
  algo ∈ recognized_algos →
  create_population algo observation_space action_space one_hot net_config
    INIT_HP actor_network critic_network population_size num_envs device
    accelerator torch_compiler
  = Ok population →
  ∃ (cls : algo_class) (kw : nat → list (string * pyval)),
    population = (λ idx, Agent cls (kw idx)) <$> range population_size
    ∧ dedicated_class algo = Some cls
    ∧ (∀ idx, call_given algo observation_space action_space one_hot
                net_config num_envs device accelerator idx (kw idx)).
Proof.
  intros Hrec Hok.
  destruct (create_population_dispatch algo Hrec)
    as (cls & kwargs & Hloop & Hcls & Hread & Hgiven).
  exists cls, (λ idx, resolve INIT_HP (kwargs idx)).
  split; [|done].
  destruct (has_keys INIT_HP (keys_read algo)) eqn:Hkeys.
  - rewrite Hloop, (population_loop_ok _ _ _ (keys_read algo)) in Hok by done.
    by injection Hok as <-.
  - destruct (decide (population_size = 0)) as [Hz|Hnz].
    + rewrite create_population_zero in Hok by done.
      injection Hok as <-. by rewrite Hz.
    + destruct (create_population_missing algo Hrec) as (key & Hraise & _);
        [lia|done|congruence].
Qed.

Lemma length_population (cls : algo_class) (kw : nat → list (string * pyval)) :
  length ((λ idx, Agent cls (kw idx)) <$> range population_size)
  = population_size.
Proof. unfold range. by rewrite length_fmap, length_seq. Qed.

(** C3: for a recognized [algo], [create_population] returns whenever the
    hyperparameters that its branch reads are in [INIT_HP], and whatever it
    returns is a list of exactly [population_size] agents whose [index]
    attributes are [0, 1, ..., population_size - 1] in construction order,
    hence pairwise distinct. *)
Theorem create_population_indices (algo : string) :
  algo ∈ recognized_algos →
  (has_keys INIT_HP (keys_read algo) = true →
   ∃ population,
     create_population algo observation_space action_space one_hot net_config
       INIT_HP actor_network critic_network population_size num_envs device
       accelerator torch_compiler
     = Ok population)
  ∧ (∀ population,
       create_population algo observation_space action_space one_hot net_config
         INIT_HP actor_network critic_network population_size num_envs device
         accelerator torch_compiler
       = Ok population →
       length population = population_size
       ∧ agent_index <$> population
         = (λ idx, Some (PInt (Z.of_nat idx))) <$> range population_size
       ∧ NoDup (agent_index <$> population)).
Proof.
  intros Hrec. split; [by apply create_population_ok|].
  intros population Hok.
  destruct (create_population_returns algo population Hrec Hok)
    as (cls & kw & -> & _ & Hgiven).
  assert (agent_index <$> ((λ idx, Agent cls (kw idx)) <$> range population_size)
          = (λ idx, Some (PInt (Z.of_nat idx))) <$> range population_size) as Hidx.
  { rewrite <- list_fmap_compose. apply list_fmap_ext. intros _ idx _.
    apply (Hgiven idx). }
  split; [apply length_population|]. split; [done|].
  rewrite Hidx. apply NoDup_fmap_2; [|apply NoDup_seq].
  intros i j Hij. injection Hij. lia.
Qed.

(** C4: for an [algo] outside the recognized set, [create_population]
    returns the empty list and raises nothing, whatever the other arguments
    are. *)
Theorem create_population_unrecognized (algo : string) :
  algo ∉ recognized_algos →
  create_population algo observation_space action_space one_hot net_config
    INIT_HP actor_network critic_network population_size num_envs device
    accelerator torch_compiler
  = Ok [].
Proof.
  intros Hnot. unfold create_population.
  repeat match goal with
         | |- context [String.eqb algo ?s] =>
             destruct (String.eqb_spec algo s) as [->|_];
             [exfalso; apply Hnot; unfold recognized_algos;
              repeat first [apply list_elem_of_here | apply list_elem_of_further]|]
         end.
  done.
Qed.

(** The keys that the code reads are those of the table of section 4.2,
    MADDPG taken without POLICY_FREQ, except that the Rainbow DQN branch
    does not read DOUBLE. *)
Lemma keys_read_table (algo : string) :
  algo ∈ recognized_algos →
  list_to_set (keys_read algo)
  =@{gset string}
    list_to_set (table_4_2 false algo)
    ∖ (if algo =? "Rainbow DQN" then {["DOUBLE"]} else ∅).
Proof.
  intros Hrec. unfold recognized_algos in Hrec.
  repeat (apply elem_of_cons in Hrec as [-> | Hrec]);
    [.. | by apply elem_of_nil in Hrec];
    apply (bool_decide_unpack _); by vm_compute.
Qed.

(** C6, as the code has it: for a recognized [algo], [create_population]
    raises a lookup failure exactly when [population_size] is at least 1
    and [INIT_HP] lacks a key that the branch of [algo] reads.  The keys
    read are those of the table of section 4.2 with two differences: the
    Rainbow DQN branch does not read DOUBLE, and MADDPG does not read
    POLICY_FREQ (only MATD3 does). *)
Theorem lookup_failure_iff_key_read_missing (algo : string) :
  algo ∈ recognized_algos →
  ((∃ key,
      create_population algo observation_space action_space one_hot net_config
        INIT_HP actor_network critic_network population_size num_envs device
        accelerator torch_compiler
      = Raise (KeyError key))
   ↔ (0 < population_size
      ∧ ∃ key, key ∈ keys_read algo ∧ INIT_HP !! key = None))
  ∧ (∀ key, key ∈ keys_read algo
            ↔ key ∈ table_4_2 false algo
              ∧ ¬ (algo = "Rainbow DQN" ∧ key = "DOUBLE"))
  ∧ ("POLICY_FREQ" ∉ keys_read "MADDPG")
  ∧ ("POLICY_FREQ" ∈ keys_read "MATD3").
Proof.
  intros Hrec. split; [|split; [|split]].
  - split.
    + intros [key Hraise]. destruct (decide (population_size = 0)) as [Hz|Hnz].
      { by rewrite create_population_zero in Hraise. }
      split; [lia|]. apply has_keys_false.
      destruct (has_keys INIT_HP (keys_read algo)) eqn:Hkeys; [|done].
      destruct (create_population_ok algo Hrec Hkeys) as (? & Hok).
      congruence.
    + intros [Hpos Hmissing%has_keys_false].
      destruct (create_population_missing algo Hrec Hpos Hmissing)
        as (key & Hraise & _). eauto.
  - intros key. pose proof (keys_read_table algo Hrec) as Hset.
    rewrite <- (elem_of_list_to_set (C:=gset string) key (keys_read algo)), Hset.
    rewrite elem_of_difference, elem_of_list_to_set.
    destruct (String.eqb_spec algo "Rainbow DQN") as [->|Hne].
    + rewrite elem_of_singleton. intuition congruence.
    + rewrite elem_of_empty. intuition congruence.
  - apply (bool_decide_unpack _). by vm_compute.
  - apply (bool_decide_unpack _). by vm_compute.
Qed.

(** C7, as the code has it: for a recognized [algo], [create_population]
    returns whenever the hyperparameters that its branch reads are in
    [INIT_HP], and every agent of a population it returns is made by the
    dedicated constructor of [algo] and is given [observation_space] and
    [action_space] (under the keywords [observation_spaces] and
    [action_spaces] for MADDPG and MATD3), [net_config], [device] and
    [accelerator]; it is given [one_hot] unless [algo] is NeuralUCB or
    NeuralTS, whose constructor calls have no [one_hot] argument. *)
Theorem create_population_forwards (algo : string) :
  algo ∈ recognized_algos →
  (has_keys INIT_HP (keys_read algo) = true →
   ∃ population,
     create_population algo observation_space action_space one_hot net_config
       INIT_HP actor_network critic_network population_size num_envs device
       accelerator torch_compiler
     = Ok population)
  ∧ (∀ population,
       create_population algo observation_space action_space one_hot net_config
         INIT_HP actor_network critic_network population_size num_envs device
         accelerator torch_compiler
       = Ok population →
       length population = population_size
       ∧ Forall (λ a,
           forwards_common algo observation_space action_space net_config
             device accelerator a
           ∧ kwarg "one_hot" a
             = (if is_bandit algo then None else Some (PBool one_hot)))
           population).
Proof.
  intros Hrec. split; [by apply create_population_ok|].
  intros population Hok.
  destruct (create_population_returns algo population Hrec Hok)
    as (cls & kw & -> & Hcls & Hgiven).
  split; [apply length_population|].
  apply Forall_fmap, Forall_forall. intros idx _.
  unfold forwards_common, kwarg, compose. cbn [agent_class agent_kwargs].
  destruct (Hgiven idx) as (_ & ? & ? & ? & ? & ? & ? & _). done.
Qed.

(** C9: for [algo] among DDPG, TD3, MADDPG and MATD3, [create_population]
    returns whenever the hyperparameters that its branch reads are in
    [INIT_HP], and every agent of a population it returns was constructed
    with [vect_noise_dim] equal to the [num_envs] argument. *)
Theorem vect_noise_dim_is_num_envs (algo : string) :
  algo ∈ noise_driven_algos →
  (has_keys INIT_HP (keys_read algo) = true →
   ∃ population,
     create_population algo observation_space action_space one_hot net_config
       INIT_HP actor_network critic_network population_size num_envs device
       accelerator torch_compiler
     = Ok population)
  ∧ (∀ population,
       create_population algo observation_space action_space one_hot net_config
         INIT_HP actor_network critic_network population_size num_envs device
         accelerator torch_compiler
       = Ok population →
       length population = population_size
       ∧ Forall (λ a, kwarg "vect_noise_dim" a = Some (PInt num_envs))
           population).
Proof.
  intros Hnoise.
  assert (algo ∈ recognized_algos ∧ is_noise_driven algo = true) as [Hrec Hb].
  { unfold noise_driven_algos in Hnoise.
    repeat (apply elem_of_cons in Hnoise as [-> | Hnoise]);
      [.. | by apply elem_of_nil in Hnoise];
      (split; [|done]); apply (bool_decide_unpack _); by vm_compute. }
  split; [by apply create_population_ok|].
  intros population Hok.
  destruct (create_population_returns algo population Hrec Hok)
    as (cls & kw & -> & _ & Hgiven).
  split; [apply length_population|].
  apply Forall_fmap, Forall_forall. intros idx _.
  unfold kwarg, compose. cbn [agent_kwargs].
  destruct (Hgiven idx) as (_ & _ & _ & _ & _ & _ & _ & ->). by rewrite Hb.
Qed.
End Population.

(** ** Env-defined actions *)

Section EnvDefinedActions.
Context (info : gmap string (gmap string pyval)).

(** The value that the comprehension stores for an agent. *)
Local Abbreviation stored agent := (default PNone (eda_entry info agent)).

Lemma entry_absent_stored (agent : string) :
  entry_absent info agent ↔ stored agent = PNone.
Proof.
  unfold entry_absent. destruct (eda_entry info agent) as [v|]; simpl.
  - split; [by intros [?|[= ->]]|]. intros ->. by right.
  - split; [done|]. by left.
Qed.

Lemma eda_comprehension_ok (agents : list string) (d : gmap string pyval) :
  Forall (λ a, is_Some (info !! a)) agents →
  ∃ m, eda_comprehension info agents d = Ok m
       ∧ (∀ a, a ∈ agents → m !! a = Some (stored a))
       ∧ (∀ a, a ∉ agents → m !! a = d !! a).
Proof.
  revert d. induction agents as [|a0 agents IH]; intros d Hinfo.
  - exists d. split; [done|]. split; [|done].
    intros a Ha. by apply elem_of_nil in Ha.
  - apply Forall_cons in Hinfo as [[agent_info Ha0] Hinfo].
    cbn [eda_comprehension]. rewrite Ha0.
    destruct (IH (<[a0 := default PNone (agent_info !! "env_defined_action"%string)]> d))
      as (m & -> & Hin & Hout); [done|].
    exists m. split; [done|]. split.
    + intros a Ha. destruct (decide (a ∈ agents)) as [|Hnot]; [by apply Hin|].
      apply elem_of_cons in Ha as [->|]; [|done].
      rewrite (Hout a0 Hnot), lookup_insert_eq.
      unfold eda_entry. by rewrite Ha0.
    + intros a Ha. apply not_elem_of_cons in Ha as [Hne Hnot].
      rewrite (Hout a Hnot). by apply lookup_insert_ne.
Qed.

Lemma all_none_true (d : gmap string pyval) :
  all_none d = true ↔ ∀ k v, d !! k = Some v → v = PNone.
Proof.
  unfold all_none. rewrite forallb_forall. split.
  - intros H k v Hk. apply (bool_decide_eq_true_1 _), H, list_elem_of_In.
    apply list_elem_of_fmap. exists (k, v). split; [done|].
    by apply elem_of_map_to_list.
  - intros H v Hv. apply bool_decide_eq_true.
    apply list_elem_of_In, list_elem_of_fmap in Hv as ([k v'] & -> & Hkv).
    apply elem_of_map_to_list in Hkv. by apply (H k).
Qed.

Lemma get_env_defined_actions_cases (agents : list string) :
  Forall (λ a, is_Some (info !! a)) agents →
  ∃ m, (∀ a, a ∈ agents → m !! a = Some (stored a))
       ∧ (∀ a, a ∉ agents → m !! a = None)
       ∧ get_env_defined_actions info agents
         = (if bool_decide (Forall (entry_absent info) agents)
            then Ok None else Ok (Some m)).
Proof.
  intros Hinfo.
  destruct (eda_comprehension_ok agents ∅ Hinfo) as (m & Hm & Hin & Hout).
  exists m. split; [done|]. split.
  { intros a Ha. by rewrite (Hout a Ha), lookup_empty. }
  unfold get_env_defined_actions. rewrite Hm. cbn [mbind result_bind].
  destruct (all_none m) eqn:Hall.
  - rewrite bool_decide_true; [done|].
    apply Forall_forall. intros a Ha. apply entry_absent_stored.
    rewrite all_none_true in Hall. by apply (Hall a), Hin.
  - rewrite bool_decide_false; [done|].
    intros Habs. apply not_true_iff_false in Hall. apply Hall.
    apply all_none_true. intros k v Hk.
    destruct (decide (k ∈ agents)) as [Hka|Hka].
    + rewrite (Hin k Hka) in Hk. injection Hk as <-.
      apply entry_absent_stored. by apply (proj1 (Forall_forall _ _) Habs).
    + by rewrite (Hout k Hka), lookup_empty in Hk.
Qed.

(** C8: when every listed agent has info, [get_env_defined_actions]
    returns [None] exactly when the ["env_defined_action"] entry of every
    listed agent is absent (missing, or holding [None]); otherwise it
    returns a mapping whose keys are the listed agents, each mapped to its
    entry, and to [None] when it has no entry. *)
Theorem get_env_defined_actions_absent_iff (agents : list string) :
  Forall (λ a, is_Some (info !! a)) agents →
  (get_env_defined_actions info agents = Ok None
   ↔ Forall (entry_absent info) agents)
  ∧ (¬ Forall (entry_absent info) agents →
     ∃ m, get_env_defined_actions info agents = Ok (Some m)
          ∧ (∀ a, a ∈ agents →
               m !! a = Some (match eda_entry info a with
                              | Some v => v
                              | None => PNone
                              end))
          ∧ (∀ a, a ∉ agents → m !! a = None)).
Proof.
  intros Hinfo.
  destruct (get_env_defined_actions_cases agents Hinfo) as (m & Hin & Hout & ->).
  case_bool_decide as Habs.
  - split; [done|]. by intros [].
  - split; [by split|]. intros _. exists m. split; [done|]. split; [|done].
    intros a Ha. rewrite (Hin a Ha). by destruct (eda_entry info a).
Qed.

(** C10: with no agent listed, [get_env_defined_actions] returns [None],
    not an empty mapping; this is also what it returns for a list of
    agents whose entries are all absent, so the two calls cannot be told
    apart. *)
Theorem get_env_defined_actions_no_agents :
  get_env_defined_actions info [] = Ok None
  ∧ get_env_defined_actions info [] ≠ Ok (Some ∅)
  ∧ (∀ agents,
       Forall (λ a, is_Some (info !! a)) agents →
       Forall (entry_absent info) agents →
       get_env_defined_actions info agents = get_env_defined_actions info []).
Proof.
  assert (get_env_defined_actions info [] = Ok None) as Hnil by done.
  split; [done|]. split; [by rewrite Hnil|].
  intros agents Hinfo Habs. rewrite Hnil.
  destruct (get_env_defined_actions_cases agents Hinfo) as (m & _ & _ & ->).
  by rewrite bool_decide_true.
Qed.
End EnvDefinedActions.

(** * Concrete runs *)

Section Runs.
Local Open Scope Z_scope.

(** The examples of section 8, with integer rewards. *)
Example scores_no_termination :
  calculate_vectorized_scores 0 Z.add [[1; 2; 3]] [[0; 0; 0]] false true
  = Ok [6].
Proof. reflexivity. Qed.

Example scores_first_episode :
  calculate_vectorized_scores 0 Z.add [[1; 2; 3; 4]] [[0; 1; 0; 0]] false true
  = Ok [3].
Proof. reflexivity. Qed.

Example scores_two_terminations :
  calculate_vectorized_scores 0 Z.add [[1; 2; 3; 4]] [[0; 1; 0; 1]] false false
  = Ok [3; 7].
Proof. reflexivity. Qed.

Example scores_trailing_episode :
  calculate_vectorized_scores 0 Z.add [[1; 2; 3; 4]] [[0; 1; 0; 0]] true false
  = Ok [3; 7].
Proof. reflexivity. Qed.

Example scores_rows_in_order :
  calculate_vectorized_scores 0 Z.add
    [[1; 2; 3; 4]; [5; 6; 7; 8]] [[0; 1; 0; 1]; [0; 0; 0; 0]] true false
  = Ok [3; 7; 26].
Proof. reflexivity. Qed.

Example scores_missing_row :
  calculate_vectorized_scores 0 Z.add [[1; 2]; [3; 4]] [[0; 1]] false true
  = Raise IndexError.
Proof. reflexivity. Qed.

Lemma calculate_vectorized_scores_refines_spec_witness :
  has_shape 2 4 [[1; 2; 3; 4]; [5; 6; 7; 8]] = true
  ∧ has_shape 2 4 [[0; 1; 0; 1]; [0; 0; 0; 0]] = true
  ∧ calculate_vectorized_scores 0 Z.add
      [[1; 2; 3; 4]; [5; 6; 7; 8]] [[0; 1; 0; 1]; [0; 0; 0; 0]] true false
    = Ok (spec_scores 0 Z.add true false
            [[1; 2; 3; 4]; [5; 6; 7; 8]] [[0; 1; 0; 1]; [0; 0; 0; 0]]).
Proof.
  split; [reflexivity|]. split; [reflexivity|].
  apply (calculate_vectorized_scores_refines_spec 0 Z.add 2 4); reflexivity.
Defined.


Lemma only_first_episode_one_score_witness :
  [0; 0; 1; 0; 1] !! 2%nat = Some 1
  ∧ Forall (λ x, x ≠ 1) (take 2 [0; 0; 1; 0; 1])
  ∧ env_body 0 Z.add true true [1; 2; 3; 4; 5] [0; 0; 1; 0; 1] [9]
    = [9] ++ [np_sum 0 Z.add (take (2 + 1) [1; 2; 3; 4; 5])].
Proof.
  assert (Forall (λ x : Z, x ≠ 1) (take 2 [0; 0; 1; 0; 1])) as Hbefore.
  { simpl. repeat constructor; lia. }
  split; [reflexivity|]. split; [exact Hbefore|].
  apply (only_first_episode_one_score 0 Z.add true); [reflexivity|exact Hbefore].
Defined.
End Runs.

Section PopulationRuns.
Local Open Scope string_scope.

(** A DQN population of three, every hyperparameter at hand. *)
Example dqn_population :
  create_population "DQN" (PObj 1) (PObj 2) true (PObj 3)
    (hp_with (keys_read "DQN")) PNone PNone 2 1 "cpu" PNone PNone
  = Ok [Agent DQN
          [("observation_space", PObj 1); ("action_space", PObj 2);
           ("one_hot", PBool true); ("index", PInt 0);
           ("net_config", PObj 3); ("batch_size", PInt 1); ("lr", PInt 1);
           ("learn_step", PInt 1); ("gamma", PInt 1); ("tau", PInt 1);
           ("double", PInt 1); ("actor_network", PNone);
           ("device", PStr "cpu"); ("accelerator", PNone)];
        Agent DQN
          [("observation_space", PObj 1); ("action_space", PObj 2);
           ("one_hot", PBool true); ("index", PInt 1);
           ("net_config", PObj 3); ("batch_size", PInt 1); ("lr", PInt 1);
           ("learn_step", PInt 1); ("gamma", PInt 1); ("tau", PInt 1);
           ("double", PInt 1); ("actor_network", PNone);
           ("device", PStr "cpu"); ("accelerator", PNone)]].
Proof. by vm_compute. Qed.

(** The first key that is missing, in the order of the call, is the one
    reported. *)
Example dqn_missing_keys :
  create_population "DQN" (PObj 1) (PObj 2) true (PObj 3)
    (hp_with ["BATCH_SIZE"; "LR"; "GAMMA"]) PNone PNone 2 1 "cpu" PNone PNone
  = Raise (KeyError "LEARN_STEP").
Proof. by vm_compute. Qed.

(** A NeuralUCB agent is constructed without [one_hot]. *)
Example neural_ucb_population :
  create_population "NeuralUCB" (PObj 1) (PObj 2) true (PObj 3)
    (hp_with (keys_read "NeuralUCB")) PNone PNone 1 1 "cpu" PNone PNone
  = Ok [Agent NeuralUCB
          [("observation_space", PObj 1); ("action_space", PObj 2);
           ("index", PInt 0); ("net_config", PObj 3); ("gamma", PInt 1);
           ("lamb", PInt 1); ("reg", PInt 1); ("batch_size", PInt 1);
           ("lr", PInt 1); ("learn_step", PInt 1); ("actor_network", PNone);
           ("device", PStr "cpu"); ("accelerator", PNone)]].
Proof. by vm_compute. Qed.

(** Rainbow DQN is constructed from a mapping without DOUBLE. *)
Example rainbow_without_double :
  hp_with (keys_read "Rainbow DQN") !! "DOUBLE" = None
  ∧ ∃ a, create_population "Rainbow DQN" (PObj 1) (PObj 2) true (PObj 3)
           (hp_with (keys_read "Rainbow DQN")) PNone PNone 1 1 "cpu" PNone PNone
         = Ok [a].
Proof. split; [by vm_compute|]. eexists. by vm_compute. Qed.

Lemma create_population_indices_witness :
  ("PPO" ∈ recognized_algos)
  ∧ has_keys (hp_with (keys_read "PPO")) (keys_read "PPO") = true
  ∧ ∃ population,
      create_population "PPO" (PObj 1) (PObj 2) false (PObj 3)
        (hp_with (keys_read "PPO")) PNone PNone 3 4 "cpu" PNone PNone
      = Ok population
      ∧ length population = 3%nat
      ∧ agent_index <$> population
        = (λ idx, Some (PInt (Z.of_nat idx))) <$> range 3
      ∧ NoDup (agent_index <$> population).
Proof.
  assert ("PPO" ∈ recognized_algos) as Hrec
    by (apply (bool_decide_unpack _); vm_compute; exact I).
  assert (has_keys (hp_with (keys_read "PPO")) (keys_read "PPO") = true)
    as Hkeys by (by vm_compute).
  split; [exact Hrec|]. split; [exact Hkeys|].
  destruct (create_population_indices (PObj 1) (PObj 2) false (PObj 3)
              (hp_with (keys_read "PPO")) PNone PNone 3 4 "cpu" PNone PNone
              "PPO" Hrec) as [Hreturns Hindices].
  destruct (Hreturns Hkeys) as [population Hok].
  exists population. split; [exact Hok|]. exact (Hindices population Hok).
Defined.

Lemma create_population_unrecognized_witness :
  ("SAC" ∉ recognized_algos)
  ∧ create_population "SAC" (PObj 1) (PObj 2) false (PObj 3)
      (hp_with (keys_read "DQN")) PNone PNone 3 4 "cpu" PNone PNone
    = Ok [].
Proof.
  assert ("SAC" ∉ recognized_algos) as Hnot
    by (apply (bool_decide_unpack _); vm_compute; exact I).
  split; [exact Hnot|].
  apply (create_population_unrecognized (PObj 1) (PObj 2) false (PObj 3)
           (hp_with (keys_read "DQN")) PNone PNone 3 4 "cpu" PNone PNone
           "SAC" Hnot).
Defined.
(** C6, refuted as it reads: with [population_size = 1] and a mapping that
    has every key the Rainbow DQN branch reads but not DOUBLE, which the
    table lists for Rainbow DQN, no lookup fails.  This holds for either
    reading of the MADDPG row. *)
Lemma lookup_failure_not_iff_table :
  ¬ lookup_failure_iff_table true ∧ ¬ lookup_failure_iff_table false.
Proof.
  assert ("Rainbow DQN" ∈ recognized_algos) as Hrec
    by (apply (bool_decide_unpack _); vm_compute; exact I).
  destruct rainbow_without_double as [Hnone [a Hok]].
  split; intros Hclaim;
    destruct (proj2 (Hclaim "Rainbow DQN" (PObj 1) (PObj 2) true (PObj 3)
                       (hp_with (keys_read "Rainbow DQN")) PNone PNone
                       1%nat 1%Z "cpu" PNone PNone Hrec)) as [key Hraise];
    try (rewrite Hok in Hraise; discriminate);
    (exists "DOUBLE"; split; [|exact Hnone]);
    apply (bool_decide_unpack _); vm_compute; exact I.
Qed.

Lemma lookup_failure_iff_key_read_missing_witness :
  ("MADDPG" ∈ recognized_algos)
  ∧ ((∃ key, create_population "MADDPG" (PObj 1) (PObj 2) true (PObj 3)
               (hp_with (keys_read "MADDPG")) PNone PNone 2 1 "cpu" PNone PNone
             = Raise (KeyError key))
     ↔ ((0 < 2)%nat
        ∧ ∃ key, key ∈ keys_read "MADDPG"
                 ∧ hp_with (keys_read "MADDPG") !! key = None))
  ∧ (∀ key, key ∈ keys_read "MADDPG"
            ↔ key ∈ table_4_2 false "MADDPG"
              ∧ ¬ ("MADDPG" = "Rainbow DQN" ∧ key = "DOUBLE"))
  ∧ ("POLICY_FREQ" ∉ keys_read "MADDPG")
  ∧ ("POLICY_FREQ" ∈ keys_read "MATD3").
Proof.
  assert ("MADDPG" ∈ recognized_algos) as Hrec
    by (apply (bool_decide_unpack _); vm_compute; exact I).
  split; [exact Hrec|].
  exact (lookup_failure_iff_key_read_missing (PObj 1) (PObj 2) true (PObj 3)
           (hp_with (keys_read "MADDPG")) PNone PNone 2 1 "cpu" PNone PNone
           "MADDPG" Hrec).
Defined.

(** C7, refuted as it reads: the one agent of a NeuralUCB population was
    constructed without a [one_hot] argument. *)
Lemma one_hot_not_forwarded_to_bandits : ¬ forwards_all_everywhere.
Proof.
  intros Hclaim.
  assert ("NeuralUCB" ∈ recognized_algos) as Hrec
    by (apply (bool_decide_unpack _); vm_compute; exact I).
  pose proof (Hclaim "NeuralUCB" (PObj 1) (PObj 2) true (PObj 3)
                (hp_with (keys_read "NeuralUCB")) PNone PNone 1%nat 1%Z "cpu"
                PNone PNone _ Hrec neural_ucb_population) as Hall.
  apply Forall_cons in Hall as [[_ Hone_hot] _]. discriminate Hone_hot.
Qed.

Lemma create_population_forwards_witness :
  ("NeuralTS" ∈ recognized_algos)
  ∧ has_keys (hp_with (keys_read "NeuralTS")) (keys_read "NeuralTS") = true
  ∧ ∃ population,
      create_population "NeuralTS" (PObj 1) (PObj 2) true (PObj 3)
        (hp_with (keys_read "NeuralTS")) PNone PNone 2 1 "cuda" (PObj 4) PNone
      = Ok population
      ∧ length population = 2%nat
      ∧ Forall (λ a,
          forwards_common "NeuralTS" (PObj 1) (PObj 2) (PObj 3) "cuda" (PObj 4) a
          ∧ kwarg "one_hot" a
            = (if is_bandit "NeuralTS" then None else Some (PBool true)))
          population.
Proof.
  assert ("NeuralTS" ∈ recognized_algos) as Hrec
    by (apply (bool_decide_unpack _); vm_compute; exact I).
  assert (has_keys (hp_with (keys_read "NeuralTS")) (keys_read "NeuralTS") = true)
    as Hkeys by (by vm_compute).
  split; [exact Hrec|]. split; [exact Hkeys|].
  destruct (create_population_forwards (PObj 1) (PObj 2) true (PObj 3)
              (hp_with (keys_read "NeuralTS")) PNone PNone 2 1 "cuda" (PObj 4)
              PNone "NeuralTS" Hrec) as [Hreturns Hforwards].
  destruct (Hreturns Hkeys) as [population Hok].
  exists population. split; [exact Hok|]. exact (Hforwards population Hok).
Defined.

Lemma vect_noise_dim_is_num_envs_witness :
  ("MATD3" ∈ noise_driven_algos)
  ∧ has_keys (hp_with (keys_read "MATD3")) (keys_read "MATD3") = true
  ∧ ∃ population,
      create_population "MATD3" (PObj 1) (PObj 2) true (PObj 3)
        (hp_with (keys_read "MATD3")) PNone PNone 2 8 "cpu" PNone PNone
      = Ok population
      ∧ length population = 2%nat
      ∧ Forall (λ a, kwarg "vect_noise_dim" a = Some (PInt 8)) population.
Proof.
  assert ("MATD3" ∈ noise_driven_algos) as Hnoise
    by (apply (bool_decide_unpack _); vm_compute; exact I).
  assert (has_keys (hp_with (keys_read "MATD3")) (keys_read "MATD3") = true)
    as Hkeys by (by vm_compute).
  split; [exact Hnoise|]. split; [exact Hkeys|].
  destruct (vect_noise_dim_is_num_envs (PObj 1) (PObj 2) true (PObj 3)
              (hp_with (keys_read "MATD3")) PNone PNone 2 8 "cpu" PNone PNone
              "MATD3" Hnoise) as [Hreturns Hnoise_dim].
  destruct (Hreturns Hkeys) as [population Hok].
  exists population. split; [exact Hok|]. exact (Hnoise_dim population Hok).
Defined.
End PopulationRuns.

Section EnvDefinedActionsRuns.
Local Open Scope string_scope.

(** Two agents, of which only the first has an env-defined action. *)
Example env_defined_actions_mixed :
  get_env_defined_actions
    {[ "agent_0" := {[ "env_defined_action" := PInt 3 ]};
       "agent_1" := ∅ ]}
    ["agent_0"; "agent_1"]
  = Ok (Some {[ "agent_0" := PInt 3; "agent_1" := PNone ]}).
Proof. by vm_compute. Qed.

(** Entries that are missing or hold [None] alike give [None]. *)
Example env_defined_actions_all_absent :
  get_env_defined_actions
    {[ "agent_0" := {[ "env_defined_action" := PNone ]};
       "agent_1" := ∅ ]}
    ["agent_0"; "agent_1"]
  = Ok None.
Proof. by vm_compute. Qed.

(** An agent without info raises. *)
Example env_defined_actions_unknown_agent :
  get_env_defined_actions {[ "agent_0" := ∅ ]} ["agent_0"; "agent_1"]
  = Raise (KeyError "agent_1").
Proof. by vm_compute. Qed.

Lemma get_env_defined_actions_absent_iff_witness :
  let info : gmap string (gmap string pyval) :=
    {[ "agent_0" := {[ "env_defined_action" := PInt 3 ]}; "agent_1" := ∅ ]} in
  let agents := ["agent_0"; "agent_1"] in
  Forall (λ a, is_Some (info !! a)) agents
  ∧ (get_env_defined_actions info agents = Ok None
     ↔ Forall (entry_absent info) agents)
  ∧ (¬ Forall (entry_absent info) agents →
     ∃ m, get_env_defined_actions info agents = Ok (Some m)
          ∧ (∀ a, a ∈ agents →
               m !! a = Some (match eda_entry info a with
                              | Some v => v
                              | None => PNone
                              end))
          ∧ (∀ a, a ∉ agents → m !! a = None)).
Proof.
  intros info agents.
  assert (Forall (λ a, is_Some (info !! a)) agents) as Hinfo
    by (apply (bool_decide_unpack _); vm_compute; exact I).
  split; [exact Hinfo|].
  exact (get_env_defined_actions_absent_iff info agents Hinfo).
Defined.

Lemma get_env_defined_actions_no_agents_witness :
  let info : gmap string (gmap string pyval) :=
    {[ "agent_0" := {[ "env_defined_action" := PNone ]}; "agent_1" := ∅ ]} in
  get_env_defined_actions info [] = Ok None
  ∧ get_env_defined_actions info ["agent_0"; "agent_1"]
    = get_env_defined_actions info [].
Proof.
  intros info.
  destruct (get_env_defined_actions_no_agents info) as (Hnil & _ & Hsame).
  split; [exact Hnil|].
  apply Hsame; apply (bool_decide_unpack _); vm_compute; exact I.
Defined.
End EnvDefinedActionsRuns.

(** * Further properties of the episode score calculator *)

Section ScoresMore.
Context {num : Type} (nzero : num) (nadd : num → num → num).

Lemma where_eq1_from_app (i : nat) (l1 l2 : list Z) :
  where_eq1_from i (l1 ++ l2)
  = where_eq1_from i l1 ++ where_eq1_from (i + length l1) l2.
Proof.
  revert i. induction l1 as [|x l1 IH]; intros i.
  - simpl. by rewrite Nat.add_0_r.
  - cbn [app where_eq1_from length]. rewrite IH.
    replace (S i + length l1) with (i + S (length l1)) by lia.
    by destruct (x =? 1)%Z.
Qed.

Lemma where_eq1_from_none (i : nat) (trow : list Z) :
  Forall (λ x, x ≠ 1%Z) trow → where_eq1_from i trow = [].
Proof.
  intros Hall. revert i. induction Hall as [|x trow Hx _ IH]; intros i; [done|].
  cbn [where_eq1_from]. destruct (Z.eqb_spec x 1); [done|]. apply IH.
Qed.

Lemma where_eq1_from_bound (i : nat) (trow : list Z) :
  Forall (λ t, t < i + length trow) (where_eq1_from i trow).
Proof.
  revert i. induction trow as [|x trow IH]; intros i; [constructor|].
  cbn [where_eq1_from length].
  assert (Forall (λ t, t < i + S (length trow)) (where_eq1_from (S i) trow)).
  { eapply Forall_impl; [apply IH|]. simpl. intros. lia. }
  destruct (x =? 1)%Z; [constructor; [lia|done]|done].
Qed.

(** The last termination index of a row whose last 1 is at step [t]. *)
Lemma where_eq1_last (trow : list Z) (t : nat) :
  trow !! t = Some 1%Z →
  Forall (λ x, x ≠ 1%Z) (drop (S t) trow) →
  ∃ before, where_eq1 trow = before ++ [t].
Proof.
  intros Ht Hafter. unfold where_eq1.
  rewrite <- (take_drop_middle trow t 1%Z Ht).
  rewrite where_eq1_from_app. cbn [where_eq1_from Z.eqb Pos.eqb].
  rewrite (where_eq1_from_none _ (drop (S t) trow)) by done.
  exists (where_eq1_from 0 (take t trow)). do 2 f_equal.
  rewrite length_take. apply lookup_lt_Some in Ht. lia.
Qed.

(** Without [break] the loop appends one score per index and leaves the
    start just past the last index. *)
Lemma termination_loop_all (row : list num) (indices : list nat)
    (start : nat) (acc : list num) :
  ∃ scores,
    termination_loop nzero nadd false row indices start acc
    = (match last indices with Some t => t + 1 | None => start end,
       acc ++ scores)
    ∧ length scores = length indices.
Proof.
  revert start acc. induction indices as [|t indices IH]; intros start acc.
  - exists []. by rewrite app_nil_r.
  - cbn [termination_loop].
    destruct (IH (t + 1) (acc ++ [np_sum nzero nadd (slice row start (t + 1))]))
      as (scores & -> & Hlen).
    exists (np_sum nzero nadd (slice row start (t + 1)) :: scores).
    split; [|simpl; lia]. rewrite <- app_assoc. f_equal.
    rewrite last_cons. by destruct (last indices).
Qed.

Lemma env_body_row_scores (iu ofe : bool) (row : list num) (trow : list Z)
    (acc : list num) :
  env_body nzero nadd iu ofe row trow acc
  = acc ++ row_scores nzero nadd iu ofe row trow.
Proof. unfold row_scores. by rewrite !env_body_spec. Qed.

Lemma row_scores_first_only (iu : bool) (row : list num) (trow : list Z) :
  ∃ score, row_scores nzero nadd iu true row trow = [score].
Proof.
  unfold row_scores, env_body.
  destruct (where_eq1 trow) as [|t indices]; cbn; eauto.
Qed.

(** X1: in the default mode ([only_first_episode=True]) the output has
    exactly one score per environment row, whatever [include_unterminated]
    is: a row contributes its first episode, or its whole sum when it has no
    termination. *)
Theorem one_score_per_row_when_first_only (rewards : list (list num))
    (terminations : list (list Z)) (include_unterminated : bool) :
  length rewards = length terminations →
  ∃ scores,
    calculate_vectorized_scores nzero nadd rewards terminations
      include_unterminated true = Ok scores
    ∧ length scores = length rewards.
Proof.
  intros Hlen. rewrite calculate_vectorized_scores_rows by done.
  eexists. split; [done|]. revert terminations Hlen.
  induction rewards as [|row rewards IH]; intros [|trow terminations] Hlen;
    try done.
  cbn [zip_with concat length].
  destruct (row_scores_first_only include_unterminated row trow) as [s ->].
  simpl. rewrite IH; [done|]. simpl in Hlen. lia.
Qed.

Lemma env_loop_raise (iu ofe : bool) (rewards : list (list num))
    (terminations : list (list Z)) (env_indices : list nat) (acc : list num) :
  Exists (λ i, terminations !! i = None) env_indices →
  env_loop nzero nadd iu ofe rewards terminations env_indices acc
  = Raise IndexError.
Proof.
  intros Hex. revert acc.
  induction env_indices as [|i env_indices IH]; intros acc.
  - by apply Exists_nil in Hex.
  - cbn [env_loop]. apply Exists_cons in Hex as [-> | Hex]; [done|].
    destruct (terminations !! i), (rewards !! i); try done. by apply IH.
Qed.

Lemma env_loop_ext (iu ofe : bool) (rewards : list (list num))
    (terminations terminations' : list (list Z)) (env_indices : list nat)
    (acc : list num) :
  Forall (λ i, terminations !! i = terminations' !! i) env_indices →
  env_loop nzero nadd iu ofe rewards terminations env_indices acc
  = env_loop nzero nadd iu ofe rewards terminations' env_indices acc.
Proof.
  intros Hall. revert acc.
  induction Hall as [|i env_indices Hi _ IH]; intros acc; [done|].
  cbn [env_loop]. rewrite Hi.
  destruct (terminations' !! i), (rewards !! i); first [done | apply IH].
Qed.

(** X2: indexing a row of [terminations] that does not exist is the only
    failure: the call raises [IndexError] exactly when [terminations] has
    fewer rows than [rewards]; otherwise it returns the scores of the rows of
    [rewards] paired with the first rows of [terminations], and any further
    row of [terminations] is ignored. *)
Theorem index_error_iff_fewer_termination_rows (rewards : list (list num))
    (terminations : list (list Z)) (include_unterminated only_first_episode : bool) :
  (length terminations < length rewards →
   calculate_vectorized_scores nzero nadd rewards terminations
     include_unterminated only_first_episode = Raise IndexError)
  ∧ (length rewards ≤ length terminations →
     calculate_vectorized_scores nzero nadd rewards terminations
       include_unterminated only_first_episode
     = Ok (concat (zip_with
                     (row_scores nzero nadd include_unterminated only_first_episode)
                     rewards terminations))).
Proof.
  split; intros Hlen.
  - unfold calculate_vectorized_scores. apply env_loop_raise.
    apply Exists_exists. exists (length terminations). split.
    + apply elem_of_seq. lia.
    + by apply lookup_ge_None.
  - unfold calculate_vectorized_scores.
    rewrite (env_loop_ext _ _ _ _ (take (length rewards) terminations)).
    + fold (calculate_vectorized_scores nzero nadd rewards
              (take (length rewards) terminations)
              include_unterminated only_first_episode).
      rewrite calculate_vectorized_scores_rows
        by (rewrite length_take; lia).
      do 2 f_equal. clear Hlen. revert terminations.
      induction rewards as [|row rewards IH]; intros [|trow terminations];
        try done.
      cbn [length take zip_with]. by rewrite IH.
    + apply Forall_forall. intros i [_ Hi]%elem_of_seq.
      by rewrite lookup_take_lt by lia.
Qed.

Lemma row_scores_first_only_flag (row : list num) (trow : list Z) :
  row_scores nzero nadd true true row trow
  = row_scores nzero nadd false true row trow.
Proof.
  unfold row_scores, env_body.
  by destruct (where_eq1 trow) as [|t indices].
Qed.

(** X3: when [only_first_episode] is true, [include_unterminated] has no
    effect at all: the two calls give the same result on every input,
    failures included. *)
Theorem include_unterminated_ignored_when_first_only
    (rewards : list (list num)) (terminations : list (list Z)) :
  calculate_vectorized_scores nzero nadd rewards terminations true true
  = calculate_vectorized_scores nzero nadd rewards terminations false true.
Proof.
  unfold calculate_vectorized_scores. generalize (@nil num) as acc.
  induction (seq 0 (length rewards)) as [|i env_indices IH]; intros acc; [done|].
  cbn [env_loop].
  destruct (terminations !! i) as [trow|], (rewards !! i) as [row|];
    [|reflexivity..].
  by rewrite !env_body_row_scores, row_scores_first_only_flag, IH.
Qed.

(** X4: a row in which no step is marked 1 contributes the sum of the whole
    row as its single score in every mode, also when [include_unterminated]
    is false; marks other than 1 do not end an episode. *)
Theorem row_without_termination_scores_whole_sum
    (include_unterminated only_first_episode : bool)
    (row : list num) (trow : list Z) (episode_rewards : list num) :
  Forall (λ x, x ≠ 1%Z) trow →
  env_body nzero nadd include_unterminated only_first_episode row trow
    episode_rewards
  = episode_rewards ++ [np_sum nzero nadd row].
Proof.
  intros Hnone. unfold env_body, where_eq1.
  by rewrite where_eq1_from_none.
Qed.

Lemma where_eq1_length (i : nat) (trow : list Z) :
  length (where_eq1_from i trow) = length (filter (λ x, x = 1%Z) trow).
Proof.
  revert i. induction trow as [|x trow IH]; intros i; [done|].
  cbn [where_eq1_from]. rewrite filter_cons.
  destruct (Z.eqb_spec x 1).
  - rewrite decide_True by done. simpl. by rewrite IH.
  - rewrite decide_False by done. apply IH.
Qed.

Lemma where_eq1_snoc (trow : list Z) (x : Z) :
  where_eq1 (trow ++ [x])
  = where_eq1 trow ++ (if (x =? 1)%Z then [length trow] else []).
Proof. unfold where_eq1. by rewrite where_eq1_from_app. Qed.

(** X5: with [only_first_episode=False], a row with at least one
    termination, as long as its row of rewards, contributes one score per
    termination, and one more exactly when [include_unterminated] is true and
    the row does not end on a termination. *)
Theorem score_count_all_episodes (include_unterminated : bool)
    (row : list num) (trow : list Z) :
  length row = length trow →
  Exists (λ x, x = 1%Z) trow →
  length (row_scores nzero nadd include_unterminated false row trow)
  = length (filter (λ x, x = 1%Z) trow)
    + (if include_unterminated && bool_decide (last trow ≠ Some 1%Z)
       then 1 else 0).
Proof.
  intros Hlen Hex. unfold row_scores, env_body.
  rewrite <- (where_eq1_length 0). fold (where_eq1 trow).
  destruct (where_eq1 trow) as [|t0 indices] eqn:Hidx.
  { exfalso. apply Exists_exists in Hex as (x & Hx & ->).
    pose proof (where_eq1_length 0 trow) as Hcount.
    fold (where_eq1 trow) in Hcount. rewrite Hidx in Hcount.
    symmetry in Hcount. apply length_zero_iff_nil in Hcount.
    assert (1%Z ∈ filter (λ x, x = 1%Z) trow) as Hin
      by by apply list_elem_of_filter.
    rewrite Hcount in Hin. by apply elem_of_nil in Hin. }
  cbn [length Nat.eqb negb andb].
  destruct (termination_loop_all row (t0 :: indices) 0 []) as (scores & -> & Hscores).
  rewrite app_nil_l.
  assert ((match last (t0 :: indices) with Some t => t + 1 | None => 0 end
           <? length row) = bool_decide (last trow ≠ Some 1%Z)) as ->.
  { rewrite <- Hidx, Hlen. clear -Hidx. revert Hidx.
    induction trow as [|x trow _] using rev_ind; [done|]. intros _.
    rewrite where_eq1_snoc, last_snoc, length_app. simpl.
    destruct (Z.eqb_spec x 1) as [->|Hne].
    - rewrite last_snoc, bool_decide_false by (by intros []).
      apply Nat.ltb_ge. lia.
    - rewrite app_nil_r, bool_decide_true by congruence.
      destruct (last (where_eq1 trow)) as [t|] eqn:Hlast.
      + apply Nat.ltb_lt. apply last_Some in Hlast as [l' Hl'].
        pose proof (where_eq1_from_bound 0 trow) as Hbound.
        fold (where_eq1 trow) in Hbound. rewrite Hl' in Hbound.
        apply Forall_app in Hbound as [_ Hbound].
        apply (proj1 (Forall_singleton _ _)) in Hbound. simpl in Hbound. lia.
      + apply Nat.ltb_lt. lia. }
  simpl in Hscores.
  destruct include_unterminated; cbn [andb].
  - case_bool_decide; [rewrite length_app|]; simpl; lia.
  - simpl. lia.
Qed.

(** X6: a score of [only_first_episode=True] is the first score of
    [only_first_episode=False]: for every row the scores of the first mode
    are a prefix of the scores of the second, whatever the two values of
    [include_unterminated] are. *)
Theorem first_only_scores_prefix_of_all (include_unterminated include_unterminated' : bool)
    (row : list num) (trow : list Z) :
  row_scores nzero nadd include_unterminated true row trow
  `prefix_of` row_scores nzero nadd include_unterminated' false row trow.
Proof.
  unfold row_scores, env_body.
  destruct (where_eq1 trow) as [|t indices]; [done|].
  cbn [length Nat.eqb termination_loop negb andb].
  destruct (termination_loop_all row indices (t + 1)
              ([] ++ [np_sum nzero nadd (slice row 0 (t + 1))]))
    as (scores & -> & _).
  rewrite app_nil_l.
  destruct (include_unterminated' && _);
    [rewrite <- app_assoc|]; by apply prefix_app_r.
Qed.

Section ExactMore.
Context `{!Assoc (=) nadd, !LeftId (=) nzero nadd, !RightId (=) nzero nadd}.

(** Without [break] the scores add up to the rewards from [start] up to the
    start that the loop leaves, just past the last index. *)
Lemma termination_loop_window_sum (row : list num) (indices : list nat)
    (start : nat) (acc : list num) :
  ascending_from start indices →
  ∃ scores start',
    termination_loop nzero nadd false row indices start acc
    = (start', acc ++ scores)
    ∧ start' = match last indices with Some t => t + 1 | None => start end
    ∧ start ≤ start'
    ∧ np_sum nzero nadd scores
      = np_sum nzero nadd (take (start' - start) (drop start row)).
Proof.
  revert start acc. induction indices as [|t indices IH]; intros start acc Hasc.
  - exists [], start. cbn [termination_loop last].
    rewrite app_nil_r, Nat.sub_diag. by repeat split.
  - destruct Hasc as [Hle Hasc]. cbn [termination_loop].
    destruct (IH (t + 1) (acc ++ [np_sum nzero nadd (slice row start (t + 1))]) Hasc)
      as (scores & start' & -> & Hlast & Hle' & Hsum).
    exists (np_sum nzero nadd (slice row start (t + 1)) :: scores), start'.
    split; [by rewrite <- app_assoc|]. split.
    { rewrite last_cons. by destruct (last indices). }
    split; [lia|].
    change (np_sum nzero nadd (?x :: scores))
      with (nadd x (np_sum nzero nadd scores)).
    rewrite Hsum. unfold slice. rewrite <- np_sum_app by done.
    replace (drop (t + 1) row) with (drop (t + 1 - start) (drop start row))
      by (rewrite drop_drop; f_equal; lia).
    rewrite take_take_drop. do 2 f_equal. lia.
Qed.

(** X7: with [include_unterminated=False] and [only_first_episode=False]
    the scores of a row whose last termination is at step [t] add up to the
    sum of its rewards at steps [0..t]: the rewards after the last
    termination are left out, and nothing before it is.  The addition of
    rewards is taken to be exact. *)
Theorem scores_stop_at_last_termination (row : list num) (trow : list Z) (t : nat) :
  trow !! t = Some 1%Z →
  Forall (λ x, x ≠ 1%Z) (drop (S t) trow) →
  np_sum nzero nadd (row_scores nzero nadd false false row trow)
  = np_sum nzero nadd (take (t + 1) row).
Proof.
  intros Ht Hafter.
  destruct (where_eq1_last trow t Ht Hafter) as [before Hidx].
  unfold row_scores, env_body.
  destruct (termination_loop_window_sum row (where_eq1 trow) 0 [])
    as (scores & start' & -> & Hlast & _ & Hsum).
  { apply where_eq1_from_ascending. }
  rewrite Hidx, last_snoc in Hlast. subst start'.
  rewrite Hidx, length_app. cbn [length].
  replace (length before + 1 =? 0) with false
    by (symmetry; apply Nat.eqb_neq; lia).
  cbn [negb andb]. by rewrite app_nil_l, Hsum, Nat.sub_0_r, drop_0.
Qed.
End ExactMore.
End ScoresMore.

(** * Further properties of the population factory *)

Section PopulationMore.
Local Open Scope string_scope.
Local Open Scope list_scope.

Lemma eval_kwargs_first_missing (INIT_HP : gmap string pyval)
    (kwargs : list (string * arg)) :
  has_keys INIT_HP (hp_keys kwargs) = false →
  ∃ key before after,
    eval_kwargs INIT_HP kwargs = Raise (KeyError key)
    ∧ hp_keys kwargs = before ++ key :: after
    ∧ has_keys INIT_HP before = true
    ∧ INIT_HP !! key = None.
Proof.
  induction kwargs as [|[kw [v | key]] kwargs IH]; intros Hkeys; [done|..].
  - destruct (IH Hkeys) as (key & before & after & Hraise & Hsplit & Hbefore & Hnone).
    exists key, before, after. cbn [eval_kwargs eval_arg mbind result_bind].
    by rewrite Hraise.
  - change (hp_keys ((kw, Hp key) :: kwargs)) with (key :: hp_keys kwargs) in *.
    cbn [has_keys forallb] in Hkeys.
    cbn [eval_kwargs eval_arg mbind result_bind].
    destruct (INIT_HP !! key) as [v|] eqn:Hkey.
    + rewrite bool_decide_true in Hkeys by eauto.
      destruct (IH Hkeys)
        as (key' & before & after & Hraise & Hsplit & Hbefore & Hnone).
      exists key', (key :: before), after. rewrite Hraise, Hsplit.
      split; [done|]. split; [done|]. split; [|done].
      cbn [has_keys forallb]. rewrite Hkey, bool_decide_true by eauto. done.
    + by exists key, [], (hp_keys kwargs).
Qed.

Lemma eval_kwargs_ext (hp1 hp2 : gmap string pyval) (kwargs : list (string * arg)) :
  (∀ k, k ∈ hp_keys kwargs → hp1 !! k = hp2 !! k) →
  eval_kwargs hp1 kwargs = eval_kwargs hp2 kwargs.
Proof.
  induction kwargs as [|[kw [v | key]] kwargs IH]; intros Hagree; [done|..].
  - cbn [eval_kwargs eval_arg mbind result_bind]. by rewrite IH.
  - cbn [eval_kwargs eval_arg]. rewrite (Hagree key) by (by left).
    rewrite IH; [done|]. intros k Hk. apply Hagree. by right.
Qed.

Lemma population_loop_ext (body body' : nat → result agent)
    (indices : list nat) (population : list agent) :
  (∀ idx, body idx = body' idx) →
  population_loop body indices population
  = population_loop body' indices population.
Proof.
  intros Hbody. revert population.
  induction indices as [|idx indices IH]; intros population; [done|].
  cbn [population_loop]. rewrite Hbody.
  destruct (body' idx); cbn [mbind result_bind]; [apply IH|done].
Qed.

(** The loop over [l1 ++ l2] is the loop over [l1] followed by the loop
    over [l2]. *)
Lemma population_loop_app (body : nat → result agent) (l1 l2 : list nat)
    (population : list agent) :
  population_loop body (l1 ++ l2) population
  = population_loop body l1 population ≫= population_loop body l2.
Proof.
  revert population. induction l1 as [|idx l1 IH]; intros population; [done|].
  cbn [app population_loop]. destruct (body idx); cbn [mbind result_bind]; [|done].
  apply IH.
Qed.

Lemma population_loop_appends (body : nat → result agent) (indices : list nat)
    (population population' : list agent) :
  population_loop body indices population = Ok population' →
  ∃ new, population' = population ++ new ∧ length new = length indices.
Proof.
  revert population. induction indices as [|idx indices IH]; intros population.
  - intros [= <-]. exists []. by rewrite app_nil_r.
  - cbn [population_loop]. destruct (body idx) as [a|]; [|done].
    cbn [mbind result_bind]. intros (new & -> & Hlen)%IH.
    exists (a :: new). rewrite <- app_assoc. split; [done|]. simpl. lia.
Qed.

Lemma create_population_other
    (algo : string) (observation_space action_space : pyval) (one_hot : bool)
    (net_config : pyval) (INIT_HP : gmap string pyval)
    (actor_network critic_network : pyval) (population_size : nat)
    (num_envs : Z) (device : string) (accelerator torch_compiler : pyval) :
  algo ∉ recognized_algos →
  create_population algo observation_space action_space one_hot net_config
    INIT_HP actor_network critic_network population_size num_envs device
    accelerator torch_compiler
  = Ok [] ∧ keys_read algo = [].
Proof.
  intros Hnot. unfold create_population, keys_read.
  repeat match goal with
         | |- context [String.eqb algo ?s] =>
             destruct (String.eqb_spec algo s) as [->|_];
             [exfalso; apply Hnot; unfold recognized_algos;
              repeat first [apply list_elem_of_here | apply list_elem_of_further]|]
         end.
  done.
Qed.

Section Fixed.
Context (observation_space action_space : pyval) (one_hot : bool)
  (net_config : pyval) (actor_network critic_network : pyval)
  (num_envs : Z) (device : string) (accelerator torch_compiler : pyval).

(** The loop and the call that a recognized identifier selects do not depend
    on the hyperparameters or on the size of the population, and the calls
    of two slots differ only in the index. *)
Lemma create_population_dispatch_uniform (algo : string) :
  algo ∈ recognized_algos →
  ∃ (cls : algo_class) (kwargs : nat → list (string * arg)),
    (∀ INIT_HP population_size,
       create_population algo observation_space action_space one_hot net_config
         INIT_HP actor_network critic_network population_size num_envs device
         accelerator torch_compiler
       = population_loop (λ idx, construct INIT_HP cls (kwargs idx))
           (range population_size) [])
    ∧ (∀ idx, hp_keys (kwargs idx) = keys_read algo)
    ∧ (∀ idx idx', args_same_but_index (kwargs idx) (kwargs idx')).
Proof.
  intros Hrec. unfold recognized_algos in Hrec.
  repeat (apply elem_of_cons in Hrec as [-> | Hrec]);
    [.. | by apply elem_of_nil in Hrec];
    (eexists _, (λ idx, _); split; [reflexivity|];
     split; [reflexivity|]; intros idx idx';
     repeat (constructor; [split; [reflexivity|]; simpl; by intros|]);
     constructor).
Qed.

Lemma construct_ok_inv (INIT_HP : gmap string pyval) (cls : algo_class)
    (kwargs : list (string * arg)) (a : agent) :
  construct INIT_HP cls kwargs = Ok a →
  a = Agent cls (resolve INIT_HP kwargs).
Proof.
  intros Hok. destruct (has_keys INIT_HP (hp_keys kwargs)) eqn:Hkeys.
  - rewrite construct_ok in Hok by done. by injection Hok.
  - destruct (construct_raise INIT_HP cls kwargs Hkeys) as (key & Hraise & _).
    congruence.
Qed.

Lemma population_loop_ok_inv (INIT_HP : gmap string pyval) (cls : algo_class)
    (kwargs : nat → list (string * arg)) (indices : list nat)
    (population population' : list agent) :
  population_loop (λ idx, construct INIT_HP cls (kwargs idx)) indices population
  = Ok population' →
  population'
  = population ++ ((λ idx, Agent cls (resolve INIT_HP (kwargs idx))) <$> indices).
Proof.
  revert population. induction indices as [|idx indices IH]; intros population.
  - intros [= <-]. by rewrite app_nil_r.
  - cbn [population_loop].
    destruct (construct INIT_HP cls (kwargs idx)) as [a|] eqn:Ha; [|done].
    cbn [mbind result_bind]. intros ->%IH.
    apply construct_ok_inv in Ha as ->. by rewrite <- app_assoc.
Qed.

Lemma resolve_same_but_index (INIT_HP : gmap string pyval)
    (l1 l2 : list (string * arg)) :
  args_same_but_index l1 l2 →
  (resolve INIT_HP l1).*1 = (resolve INIT_HP l2).*1
  ∧ ∀ kw, kw ≠ "index" →
      lookup_kwarg kw (resolve INIT_HP l1) = lookup_kwarg kw (resolve INIT_HP l2).
Proof.
  induction 1 as [|[kw1 a1] [kw2 a2] l1 l2 [Hkw Harg] _ [IHkeys IHlookup]];
    [done|].
  simpl in Hkw, Harg. subst kw2. split.
  - unfold resolve in *. rewrite !fmap_cons. cbn [fst]. by rewrite IHkeys.
  - intros kw Hne. unfold resolve in *. rewrite !fmap_cons.
    cbn [lookup_kwarg fst snd].
    destruct (String.eqb_spec kw1 kw) as [->|_]; [|by apply IHlookup].
    by rewrite Harg.
Qed.

(** X8: when a recognized [algo] is called with [population_size] at least
    1 and some key that its branch reads is missing, the [KeyError] names the
    first missing key in the order in which the constructor call reads the
    keys; every key read before it is present. *)
Theorem first_missing_key_is_raised (algo : string)
    (INIT_HP : gmap string pyval) (population_size : nat) :
  algo ∈ recognized_algos →
  0 < population_size →
  has_keys INIT_HP (keys_read algo) = false →
  ∃ key before after,
    create_population algo observation_space action_space one_hot net_config
      INIT_HP actor_network critic_network population_size num_envs device
      accelerator torch_compiler
    = Raise (KeyError key)
    ∧ keys_read algo = before ++ key :: after
    ∧ has_keys INIT_HP before = true
    ∧ INIT_HP !! key = None.
Proof.
  intros Hrec Hpos Hkeys.
  destruct (create_population_dispatch_uniform algo Hrec)
    as (cls & kwargs & -> & Hread & _).
  destruct population_size as [|n]; [lia|].
  rewrite <- (Hread 0) in Hkeys |- *.
  destruct (eval_kwargs_first_missing _ _ Hkeys)
    as (key & before & after & Hraise & Hsplit & Hbefore & Hnone).
  exists key, before, after. unfold range. cbn [seq population_loop].
  assert (construct INIT_HP cls (kwargs 0) = Raise (KeyError key)) as ->
    by (unfold construct; by rewrite Hraise).
  done.
Qed.

(** X9: the result depends on [INIT_HP] only through the keys that the
    branch of [algo] reads: two mappings that agree on those keys give the
    same result, so further keys are ignored. *)
Theorem only_keys_read_matter (algo : string)
    (INIT_HP INIT_HP' : gmap string pyval) (population_size : nat) :
  (∀ key, key ∈ keys_read algo → INIT_HP !! key = INIT_HP' !! key) →
  create_population algo observation_space action_space one_hot net_config
    INIT_HP actor_network critic_network population_size num_envs device
    accelerator torch_compiler
  = create_population algo observation_space action_space one_hot net_config
      INIT_HP' actor_network critic_network population_size num_envs device
      accelerator torch_compiler.
Proof.
  intros Hagree. destruct (decide (algo ∈ recognized_algos)) as [Hrec|Hnot].
  - destruct (create_population_dispatch_uniform algo Hrec)
      as (cls & kwargs & Hloop & Hread & _).
    rewrite !Hloop. apply population_loop_ext. intros idx.
    unfold construct. rewrite (eval_kwargs_ext INIT_HP INIT_HP'); [done|].
    by rewrite Hread.
  - by rewrite !(proj1 (create_population_other _ _ _ _ _ _ _ _ _ _ _ _ _ Hnot)).
Qed.

(** X10: the agents of a returned population are identical calls but for
    the index: any two of them have the same class, the same keywords in the
    same order and the same value for every keyword other than [index]. *)
Theorem population_identical_but_index (algo : string)
    (INIT_HP : gmap string pyval) (population_size : nat)
    (population : list agent) :
  create_population algo observation_space action_space one_hot net_config
    INIT_HP actor_network critic_network population_size num_envs device
    accelerator torch_compiler
  = Ok population →
  ∀ a b, a ∈ population → b ∈ population → same_but_index a b.
Proof.
  intros Hok a b Ha Hb.
  destruct (decide (algo ∈ recognized_algos)) as [Hrec|Hnot].
  - destruct (create_population_dispatch_uniform algo Hrec)
      as (cls & kwargs & Hloop & _ & Hsame).
    rewrite Hloop in Hok. apply population_loop_ok_inv in Hok as ->.
    rewrite app_nil_l in Ha, Hb.
    apply list_elem_of_fmap in Ha as (i & -> & _).
    apply list_elem_of_fmap in Hb as (j & -> & _).
    destruct (resolve_same_but_index INIT_HP _ _ (Hsame i j)) as [Hkeys Hlookup].
    by repeat split.
  - rewrite (proj1 (create_population_other _ _ _ _ _ _ _ _ _ _ _ _ _ Hnot)) in Hok.
    injection Hok as <-. by apply elem_of_nil in Ha.
Qed.

(** X11: [torch_compiler] reaches the constructor only for MADDPG and
    MATD3; for every other [algo] the result does not depend on it. *)
Theorem torch_compiler_only_for_multi_agent (algo : string)
    (INIT_HP : gmap string pyval) (population_size : nat)
    (torch_compiler' : pyval) :
  is_multi_agent algo = false →
  create_population algo observation_space action_space one_hot net_config
    INIT_HP actor_network critic_network population_size num_envs device
    accelerator torch_compiler
  = create_population algo observation_space action_space one_hot net_config
      INIT_HP actor_network critic_network population_size num_envs device
      accelerator torch_compiler'.
Proof.
  unfold is_multi_agent. intros [Hmaddpg Hmatd3]%orb_false_elim.
  unfold create_population. rewrite Hmaddpg, Hmatd3.
  repeat match goal with
         | |- context [String.eqb algo ?s] => destruct (String.eqb algo s)
         end; reflexivity.
Qed.

(** X12: [critic_network] reaches the constructor only for DDPG, PPO, TD3,
    MADDPG and MATD3; for every other [algo] the result does not depend on
    it. *)
Theorem critic_network_only_for_actor_critic (algo : string)
    (INIT_HP : gmap string pyval) (population_size : nat)
    (critic_network' : pyval) :
  takes_critic algo = false →
  create_population algo observation_space action_space one_hot net_config
    INIT_HP actor_network critic_network population_size num_envs device
    accelerator torch_compiler
  = create_population algo observation_space action_space one_hot net_config
      INIT_HP actor_network critic_network' population_size num_envs device
      accelerator torch_compiler.
Proof.
  unfold takes_critic.
  intros [[[[H1 H2]%orb_false_elim H3]%orb_false_elim H4]%orb_false_elim H5]%orb_false_elim.
  unfold create_population. rewrite H1, H2, H3, H4, H5.
  repeat match goal with
         | |- context [String.eqb algo ?s] => destruct (String.eqb algo s)
         end; reflexivity.
Qed.

(** X13: a smaller population is the beginning of a larger one: when the
    call for [population_size'] agents returns, the call for
    [population_size ≤ population_size'] agents with the same other
    arguments returns the first [population_size] agents of it. *)
Theorem smaller_population_is_prefix (algo : string)
    (INIT_HP : gmap string pyval) (population_size population_size' : nat)
    (population' : list agent) :
  (population_size ≤ population_size')%nat →
  create_population algo observation_space action_space one_hot net_config
    INIT_HP actor_network critic_network population_size' num_envs device
    accelerator torch_compiler
  = Ok population' →
  create_population algo observation_space action_space one_hot net_config
    INIT_HP actor_network critic_network population_size num_envs device
    accelerator torch_compiler
  = Ok (take population_size population').
Proof.
  intros Hle Hok. destruct (decide (algo ∈ recognized_algos)) as [Hrec|Hnot].
  - destruct (create_population_dispatch_uniform algo Hrec)
      as (cls & kwargs & Hloop & _ & _).
    rewrite Hloop in Hok |- *. unfold range in *.
    replace population_size' with (population_size + (population_size' - population_size))
      in Hok by lia.
    rewrite seq_app, population_loop_app in Hok.
    destruct (population_loop _ (seq 0 population_size) [])
      as [population|] eqn:Hsmall; [|done].
    cbn [mbind result_bind] in Hok.
    apply population_loop_appends in Hsmall as (new & -> & Hnew).
    apply population_loop_appends in Hok as (new' & -> & _).
    rewrite length_seq in Hnew. rewrite !app_nil_l.
    by rewrite take_app_length' by done.
  - rewrite (proj1 (create_population_other _ _ _ _ _ _ _ _ _ _ _ _ _ Hnot)) in Hok.
    rewrite (proj1 (create_population_other _ _ _ _ _ _ _ _ _ _ _ _ _ Hnot)).
    injection Hok as <-. by rewrite take_nil.
Qed.
End Fixed.
End PopulationMore.

(** * Further properties of the env-defined actions *)

Section EnvDefinedActionsMore.

Lemma eda_comprehension_raise (info : gmap string (gmap string pyval))
    (before after : list string) (agent : string) (d : gmap string pyval) :
  Forall (λ a, is_Some (info !! a)) before →
  info !! agent = None →
  eda_comprehension info (before ++ agent :: after) d = Raise (KeyError agent).
Proof.
  intros Hbefore Hnone. revert d.
  induction Hbefore as [|a before [agent_info Ha] _ IH]; intros d.
  - cbn [app eda_comprehension]. by rewrite Hnone.
  - cbn [app eda_comprehension]. rewrite Ha. apply IH.
Qed.

Lemma eda_comprehension_has_info (info : gmap string (gmap string pyval))
    (agents : list string) (d m : gmap string pyval) :
  eda_comprehension info agents d = Ok m →
  Forall (λ a, is_Some (info !! a)) agents.
Proof.
  revert d. induction agents as [|a agents IH]; intros d Hok; [constructor|].
  cbn [eda_comprehension] in Hok.
  destruct (info !! a) as [agent_info|] eqn:Ha; [|done].
  constructor; [by rewrite Ha|by eapply IH].
Qed.

Lemma eda_comprehension_ext (info info' : gmap string (gmap string pyval))
    (agents : list string) (d : gmap string pyval) :
  Forall (λ a, eda_value info a = eda_value info' a) agents →
  eda_comprehension info agents d = eda_comprehension info' agents d.
Proof.
  intros Hagree. revert d.
  induction Hagree as [|a agents Ha _ IH]; intros d; [done|].
  cbn [eda_comprehension]. unfold eda_value in Ha.
  destruct (info !! a) as [agent_info|], (info' !! a) as [agent_info'|];
    simpl in Ha; try done.
  injection Ha as ->. apply IH.
Qed.

(** X14: an agent without info is an error: the call raises [KeyError] for
    the first listed agent that [info] does not have, whatever the entries
    of the other agents are. *)
Theorem first_agent_without_info_raises
    (info : gmap string (gmap string pyval))
    (before after : list string) (agent : string) :
  Forall (λ a, is_Some (info !! a)) before →
  info !! agent = None →
  get_env_defined_actions info (before ++ agent :: after)
  = Raise (KeyError agent).
Proof.
  intros Hbefore Hnone. unfold get_env_defined_actions.
  by rewrite eda_comprehension_raise.
Qed.


(** X16: a mapping is returned only when it has something in it: it is not
    empty, and some listed agent is mapped to a value other than [None]. *)
Theorem returned_mapping_defines_an_action
    (info : gmap string (gmap string pyval)) (agents : list string)
    (m : gmap string pyval) :
  get_env_defined_actions info agents = Ok (Some m) →
  m ≠ ∅ ∧ ∃ a v, a ∈ agents ∧ m !! a = Some v ∧ v ≠ PNone.
Proof.
  intros Hok.
  assert (Forall (λ a, is_Some (info !! a)) agents) as Hinfo.
  { unfold get_env_defined_actions in Hok.
    destruct (eda_comprehension info agents ∅) as [d|] eqn:Hd; [|done].
    by eapply eda_comprehension_has_info. }
  destruct (get_env_defined_actions_cases info agents Hinfo)
    as (m' & Hin & _ & Hcases).
  rewrite Hcases in Hok. case_bool_decide as Habs; [done|].
  injection Hok as ->.
  apply not_Forall_Exists in Habs; [|apply _].
  apply Exists_exists in Habs as (a & Ha & Hdefined).
  assert (m !! a = Some (default PNone (eda_entry info a))) as Hm
    by by apply Hin.
  assert (default PNone (eda_entry info a) ≠ PNone) as Hvalue
    by (by intros ?%entry_absent_stored).
  split; [|by eauto 6].
  intros ->. by rewrite lookup_empty in Hm.
Qed.

(** X17: of the info of an agent only the ["env_defined_action"] entry is
    read: two infos that have the same agents among the listed ones and give
    them the same entry (a missing entry counting as [None]) give the same
    result, failures included. *)
Theorem only_env_defined_action_is_read
    (info info' : gmap string (gmap string pyval)) (agents : list string) :
  Forall (λ a, eda_value info a = eda_value info' a) agents →
  get_env_defined_actions info agents = get_env_defined_actions info' agents.
Proof.
  intros Hagree. unfold get_env_defined_actions.
  by rewrite (eda_comprehension_ext info info').
Qed.
End EnvDefinedActionsMore.

(** * Reporting helpers *)

Section ReportingFacts.
Context {num : Type}.

Lemma slice_last_suffix {A : Type} (n : nat) (a : list A) :
  slice_last n a `suffix_of` a ∧ length (slice_last n a) = n `min` length a.
Proof.
  unfold slice_last. split; [apply suffix_drop|]. rewrite length_drop. lia.
Qed.

(** X18: [print_hyperparams] prints one line per agent, in the order of the
    population, and the mean on the line of an agent is taken over the last
    five entries of its [fitness], or over all of them when there are fewer
    than five: a short [fitness] is not an error. *)
Theorem print_hyperparams_last_five (np_mean : list num → num)
    (format_line : Z → num → pyval → string) (pop : list (member num)) :
  length (print_hyperparams np_mean format_line pop) = length pop
  ∧ ∀ i agent,
      pop !! i = Some agent →
      ∃ window,
        print_hyperparams np_mean format_line pop !! i
        = Some (format_line (member_index agent) (np_mean window)
                  (member_attributes agent))
        ∧ window `suffix_of` member_fitness agent
        ∧ length window = 5 `min` length (member_fitness agent)
        ∧ (length (member_fitness agent) ≤ 5 → window = member_fitness agent).
Proof.
  unfold print_hyperparams. split; [by rewrite length_fmap|].
  intros i agent Hi. exists (slice_last 5 (member_fitness agent)).
  rewrite list_lookup_fmap, Hi.
  destruct (slice_last_suffix 5 (member_fitness agent)) as [Hsuffix Hlen].
  repeat split; [done..|].
  intros Hshort. unfold slice_last.
  by replace (length (member_fitness agent) - 5) with 0 by lia.
Qed.

End ReportingFacts.

(** * Further concrete runs *)

Section MoreRuns.
Local Open Scope Z_scope.

Lemma one_score_per_row_when_first_only_witness :
  length [[1; 2; 3; 4]; [5; 6; 7; 8]] = length [[0; 1; 0; 1]; [0; 0; 0; 0]]
  ∧ ∃ scores,
      calculate_vectorized_scores 0 Z.add
        [[1; 2; 3; 4]; [5; 6; 7; 8]] [[0; 1; 0; 1]; [0; 0; 0; 0]] true true
      = Ok scores
      ∧ length scores = length [[1; 2; 3; 4]; [5; 6; 7; 8]].
Proof.
  split; [reflexivity|].
  apply (one_score_per_row_when_first_only 0 Z.add). reflexivity.
Defined.

Lemma index_error_iff_fewer_termination_rows_witness :
  (length [[0; 1]] < length [[1; 2]; [3; 4]])%nat
  ∧ calculate_vectorized_scores 0 Z.add [[1; 2]; [3; 4]] [[0; 1]] false false
    = Raise IndexError
  ∧ (length [[1; 2]] ≤ length [[0; 1]; [1; 1]])%nat
  ∧ calculate_vectorized_scores 0 Z.add [[1; 2]] [[0; 1]; [1; 1]] false false
    = Ok (concat (zip_with (row_scores 0 Z.add false false)
                    [[1; 2]] [[0; 1]; [1; 1]])).
Proof.
  assert (length [[0; 1]] < length [[1; 2]; [3; 4]])%nat as Hfewer
    by (simpl; lia).
  assert (length [[1; 2]] ≤ length [[0; 1]; [1; 1]])%nat as Hmore
    by (simpl; lia).
  split; [exact Hfewer|]. split.
  - exact (proj1 (index_error_iff_fewer_termination_rows 0 Z.add
                    [[1; 2]; [3; 4]] [[0; 1]] false false) Hfewer).
  - split; [exact Hmore|].
    exact (proj2 (index_error_iff_fewer_termination_rows 0 Z.add
                    [[1; 2]] [[0; 1]; [1; 1]] false false) Hmore).
Defined.

Lemma row_without_termination_scores_whole_sum_witness :
  Forall (λ x, x ≠ 1) [0; 2; 0]
  ∧ env_body 0 Z.add false false [1; 2; 3] [0; 2; 0] [9]
    = [9] ++ [np_sum 0 Z.add [1; 2; 3]].
Proof.
  assert (Forall (λ x : Z, x ≠ 1) [0; 2; 0]) as Hnone
    by (repeat constructor; lia).
  split; [exact Hnone|].
  apply (row_without_termination_scores_whole_sum 0 Z.add false false).
  exact Hnone.
Defined.

Lemma score_count_all_episodes_witness :
  length [1; 2; 3; 4] = length [0; 1; 0; 0]
  ∧ Exists (λ x, x = 1) [0; 1; 0; 0]
  ∧ length (row_scores 0 Z.add true false [1; 2; 3; 4] [0; 1; 0; 0])
    = (length (filter (λ x, x = 1) [0; 1; 0; 0])
       + (if true && bool_decide (last [0; 1; 0; 0] ≠ Some 1) then 1 else 0))%nat.
Proof.
  assert (Exists (λ x : Z, x = 1) [0; 1; 0; 0]) as Hex
    by (apply Exists_cons_tl, Exists_cons_hd; reflexivity).
  split; [reflexivity|]. split; [exact Hex|].
  apply (score_count_all_episodes 0 Z.add true); [reflexivity|exact Hex].
Defined.

Lemma scores_stop_at_last_termination_witness :
  [0; 1; 0; 1; 0] !! 3%nat = Some 1
  ∧ Forall (λ x, x ≠ 1) (drop 4 [0; 1; 0; 1; 0])
  ∧ np_sum 0 Z.add (row_scores 0 Z.add false false [1; 2; 3; 4; 5] [0; 1; 0; 1; 0])
    = np_sum 0 Z.add (take (3 + 1) [1; 2; 3; 4; 5]).
Proof.
  assert (Forall (λ x : Z, x ≠ 1) (drop 4 [0; 1; 0; 1; 0])) as Hafter
    by (simpl; repeat constructor; lia).
  split; [reflexivity|]. split; [exact Hafter|].
  apply (@scores_stop_at_last_termination Z 0 Z.add
           Z.add_assoc' Z.add_left_id); [reflexivity|exact Hafter].
Defined.
End MoreRuns.

Section MorePopulationRuns.
Local Open Scope string_scope.

Lemma first_missing_key_is_raised_witness :
  ("DQN" ∈ recognized_algos)
  ∧ (0 < 2)%nat
  ∧ has_keys (hp_with ["BATCH_SIZE"; "LR"; "GAMMA"]) (keys_read "DQN") = false
  ∧ ∃ key before after,
      create_population "DQN" (PObj 1) (PObj 2) true (PObj 3)
        (hp_with ["BATCH_SIZE"; "LR"; "GAMMA"]) PNone PNone 2 1 "cpu" PNone PNone
      = Raise (KeyError key)
      ∧ keys_read "DQN" = (before ++ key :: after)%list
      ∧ has_keys (hp_with ["BATCH_SIZE"; "LR"; "GAMMA"]) before = true
      ∧ hp_with ["BATCH_SIZE"; "LR"; "GAMMA"] !! key = None.
Proof.
  assert ("DQN" ∈ recognized_algos) as Hrec
    by (apply (bool_decide_unpack _); vm_compute; exact I).
  assert (0 < 2)%nat as Hpos by lia.
  assert (has_keys (hp_with ["BATCH_SIZE"; "LR"; "GAMMA"]) (keys_read "DQN")
          = false) as Hkeys by (by vm_compute).
  split; [exact Hrec|]. split; [exact Hpos|]. split; [exact Hkeys|].
  exact (first_missing_key_is_raised (PObj 1) (PObj 2) true (PObj 3) PNone PNone
           1 "cpu" PNone PNone "DQN" (hp_with ["BATCH_SIZE"; "LR"; "GAMMA"]) 2
           Hrec Hpos Hkeys).
Defined.

Lemma only_keys_read_matter_witness :
  (∀ key, key ∈ keys_read "DQN" →
          hp_with (keys_read "DQN") !! key
          = <["SEED" := PInt 7]> (hp_with (keys_read "DQN")) !! key)
  ∧ create_population "DQN" (PObj 1) (PObj 2) true (PObj 3)
      (hp_with (keys_read "DQN")) PNone PNone 2 1 "cpu" PNone PNone
    = create_population "DQN" (PObj 1) (PObj 2) true (PObj 3)
        (<["SEED" := PInt 7]> (hp_with (keys_read "DQN")))
        PNone PNone 2 1 "cpu" PNone PNone.
Proof.
  assert (∀ key, key ∈ keys_read "DQN" →
            hp_with (keys_read "DQN") !! key
            = <["SEED" := PInt 7]> (hp_with (keys_read "DQN")) !! key) as Hagree.
  { intros key Hkey. rewrite lookup_insert_ne; [reflexivity|].
    intros <-. revert Hkey. apply (bool_decide_unpack _). vm_compute. exact I. }
  split; [exact Hagree|].
  exact (only_keys_read_matter (PObj 1) (PObj 2) true (PObj 3) PNone PNone
           1 "cpu" PNone PNone "DQN" _ _ 2 Hagree).
Defined.

Lemma population_identical_but_index_witness :
  ∃ population,
    create_population "TD3" (PObj 1) (PObj 2) true (PObj 3)
      (hp_with (keys_read "TD3")) PNone PNone 3 1 "cpu" PNone PNone
    = Ok population
    ∧ length population = 3%nat
    ∧ ∀ a b, a ∈ population → b ∈ population → same_but_index a b.
Proof.
  eexists. split; [by vm_compute|]. split; [reflexivity|].
  apply (population_identical_but_index (PObj 1) (PObj 2) true (PObj 3) PNone
           PNone 1 "cpu" PNone PNone "TD3" (hp_with (keys_read "TD3")) 3).
  by vm_compute.
Defined.

Lemma torch_compiler_only_for_multi_agent_witness :
  is_multi_agent "DDPG" = false
  ∧ create_population "DDPG" (PObj 1) (PObj 2) true (PObj 3)
      (hp_with (keys_read "DDPG")) PNone PNone 2 1 "cpu" PNone PNone
    = create_population "DDPG" (PObj 1) (PObj 2) true (PObj 3)
        (hp_with (keys_read "DDPG")) PNone PNone 2 1 "cpu" PNone (PObj 9).
Proof.
  split; [reflexivity|].
  apply (torch_compiler_only_for_multi_agent (PObj 1) (PObj 2) true (PObj 3)
           PNone PNone 1 "cpu" PNone PNone "DDPG"). reflexivity.
Defined.

Lemma critic_network_only_for_actor_critic_witness :
  takes_critic "Rainbow DQN" = false
  ∧ create_population "Rainbow DQN" (PObj 1) (PObj 2) true (PObj 3)
      (hp_with (keys_read "Rainbow DQN")) PNone PNone 2 1 "cpu" PNone PNone
    = create_population "Rainbow DQN" (PObj 1) (PObj 2) true (PObj 3)
        (hp_with (keys_read "Rainbow DQN")) PNone (PObj 9) 2 1 "cpu" PNone PNone.
Proof.
  split; [reflexivity|].
  apply (critic_network_only_for_actor_critic (PObj 1) (PObj 2) true (PObj 3)
           PNone PNone 1 "cpu" PNone PNone "Rainbow DQN"). reflexivity.
Defined.

Lemma smaller_population_is_prefix_witness :
  (1 ≤ 3)%nat
  ∧ ∃ population',
      create_population "CQN" (PObj 1) (PObj 2) true (PObj 3)
        (hp_with (keys_read "CQN")) PNone PNone 3 1 "cpu" PNone PNone
      = Ok population'
      ∧ create_population "CQN" (PObj 1) (PObj 2) true (PObj 3)
          (hp_with (keys_read "CQN")) PNone PNone 1 1 "cpu" PNone PNone
        = Ok (take 1 population').
Proof.
  assert (1 ≤ 3)%nat as Hle by lia.
  split; [exact Hle|]. eexists. split; [by vm_compute|].
  apply (smaller_population_is_prefix (PObj 1) (PObj 2) true (PObj 3) PNone
           PNone 1 "cpu" PNone PNone "CQN" (hp_with (keys_read "CQN")) 1 3 _ Hle).
  by vm_compute.
Defined.

Lemma first_agent_without_info_raises_witness :
  Forall (λ a, is_Some (({[ "agent_0" := ∅ ]} : gmap string (gmap string pyval)) !! a))
    ["agent_0"]
  ∧ ({[ "agent_0" := ∅ ]} : gmap string (gmap string pyval)) !! "agent_1" = None
  ∧ get_env_defined_actions {[ "agent_0" := ∅ ]}
      (["agent_0"] ++ "agent_1" :: ["agent_2"])%list
    = Raise (KeyError "agent_1").
Proof.
  assert (Forall (λ a, is_Some (({[ "agent_0" := ∅ ]}
                                  : gmap string (gmap string pyval)) !! a))
            ["agent_0"]) as Hbefore
    by (apply (bool_decide_unpack _); vm_compute; exact I).
  split; [exact Hbefore|]. split; [reflexivity|].
  apply (first_agent_without_info_raises {[ "agent_0" := ∅ ]}
           ["agent_0"] ["agent_2"] "agent_1" Hbefore).
  reflexivity.
Defined.


Lemma returned_mapping_defines_an_action_witness :
  let info : gmap string (gmap string pyval) :=
    {[ "agent_0" := {[ "env_defined_action" := PInt 3 ]}; "agent_1" := ∅ ]} in
  let m : gmap string pyval := {[ "agent_0" := PInt 3; "agent_1" := PNone ]} in
  get_env_defined_actions info ["agent_0"; "agent_1"] = Ok (Some m)
  ∧ m ≠ ∅
  ∧ ∃ a v, a ∈ ["agent_0"; "agent_1"] ∧ m !! a = Some v ∧ v ≠ PNone.
Proof.
  intros info m.
  assert (get_env_defined_actions info ["agent_0"; "agent_1"] = Ok (Some m))
    as Hok by (by vm_compute).
  split; [exact Hok|].
  exact (returned_mapping_defines_an_action info _ m Hok).
Defined.

Lemma only_env_defined_action_is_read_witness :
  let info : gmap string (gmap string pyval) :=
    {[ "agent_0" := {[ "env_defined_action" := PInt 3; "score" := PInt 1 ]} ]} in
  let info' : gmap string (gmap string pyval) :=
    {[ "agent_0" := {[ "env_defined_action" := PInt 3 ]} ]} in
  Forall (λ a, eda_value info a = eda_value info' a) ["agent_0"; "agent_1"]
  ∧ get_env_defined_actions info ["agent_0"; "agent_1"]
    = get_env_defined_actions info' ["agent_0"; "agent_1"].
Proof.
  intros info info'.
  assert (Forall (λ a, eda_value info a = eda_value info' a)
            ["agent_0"; "agent_1"]) as Hagree
    by (apply (bool_decide_unpack _); vm_compute; exact I).
  split; [exact Hagree|].
  exact (only_env_defined_action_is_read info info' _ Hagree).
Defined.

Lemma print_hyperparams_last_five_witness :
  let pop := [Member 0 [1; 2; 3; 4; 5; 6; 7]%Z [] PNone; Member 1 [8; 9]%Z [] PNone] in
  let format_line := λ (idx mean : Z) (_ : pyval),
    if (mean =? 17)%Z then "Mean 5 Fitness: 17" else "Mean 5 Fitness: other" in
  length (print_hyperparams (np_sum 0%Z Z.add) format_line pop) = length pop
  ∧ ∃ window,
      print_hyperparams (np_sum 0%Z Z.add) format_line pop !! 1%nat
      = Some (format_line 1%Z (np_sum 0%Z Z.add window) PNone)
      ∧ window `suffix_of` [8; 9]%Z
      ∧ length window = (5 `min` 2)%nat
      ∧ ((2 ≤ 5)%nat → window = [8; 9]%Z).
Proof.
  intros pop format_line.
  destruct (print_hyperparams_last_five (np_sum 0%Z Z.add) format_line pop)
    as [Hlen Hlines].
  split; [exact Hlen|].
  exact (Hlines 1%nat (Member 1 [8; 9]%Z [] PNone) eq_refl).
Defined.

End MorePopulationRuns.
